(** * nudge: random perturbation of a parity game graph

    A shallow embedding of [src/tools/nudge.cpp] (the mutation loop of
    [main]) together with the part of the [Game] store it relies on, and
    the properties of the mutation engine stated over that embedding.

    Conventions.
    - A C++ [int] is a [Z]; no arithmetic of the mutation loop can
      overflow for graphs that fit in memory, so no wrap-around occurs.
    - A [std::vector<T>] is a [list T]; it is indexed by an [int] through
      [Vec.get] and updated in place through [Vec.upd].  Indexing a vector
      out of range is undefined behaviour in the source; the model makes
      such a read return a default and such a write do nothing, and every
      theorem below is stated for in-range accesses only.
    - A call [rng(i, j)] is an effect of the program: programs are trees
      ([Prog]) whose inner nodes are sampler calls. *)

From Stdlib Require Import ZArith Lia.
From stdpp Require Import base decidable option relations list list_numbers.

Open Scope Z_scope.

Set Warnings "-clear-no-such-hyp".

(** ** Vectors indexed by [int] *)

Module Vec.

Definition size {A} (l : list A) : Z := Z.of_nat (length l).

Definition get {A} (d : A) (l : list A) (i : Z) : A :=
  if decide (0 ≤ i) then default d (l !! Z.to_nat i) else d.

Definition upd {A} (f : A → A) (i : Z) (l : list A) : list A :=
  if decide (0 ≤ i) then alter f (Z.to_nat i) l else l.

(** [v.erase(v.begin() + k)] *)
Definition erase_at {A} (k : Z) (l : list A) : list A :=
  if decide (0 ≤ k) then delete (Z.to_nat k) l else l.

(** [v.erase(std::remove(v.begin(), v.end(), x), v.end())] *)
Definition remove_all (x : Z) (l : list Z) : list Z :=
  filter (λ y, y ≠ x) l.

(** [v.push_back(x)] *)
Definition push_back {A} (x : A) (l : list A) : list A := l ++ [x].

End Vec.

(** ** The graph store *)

(** Modelled from the spec: the [Game] class is declared in [game.hpp],
    which is not part of the sources at hand.  Section 3 of the
    specification gives its shape: [n] nodes, an owner per node and the
    forward and backward adjacency sequences. *)
Record Game : Type := mkGame {
  n_nodes : Z;
  owner : list Z;
  out : list (list Z);
  in_ : list (list Z)
}.

(** [game->out[n]], [game->in[n]] and [game->owner[n]] *)
Definition outs (g : Game) (n : Z) : list Z := Vec.get [] (out g) n.
Definition ins (g : Game) (n : Z) : list Z := Vec.get [] (in_ g) n.
Definition owner_of (g : Game) (n : Z) : Z := Vec.get 0 (owner g) n.

Definition with_out (g : Game) (o : list (list Z)) : Game :=
  mkGame (n_nodes g) (owner g) o (in_ g).
Definition with_in (g : Game) (i : list (list Z)) : Game :=
  mkGame (n_nodes g) (owner g) (out g) i.
Definition with_owner (g : Game) (w : list Z) : Game :=
  mkGame (n_nodes g) w (out g) (in_ g).

(** [out[from].push_back(to); in[to].push_back(from)], as lines 153-154
    of the source spell it out. *)
Definition push_edge (g : Game) (from to : Z) : Game :=
  mkGame (n_nodes g) (owner g)
    (Vec.upd (Vec.push_back to) from (out g))
    (Vec.upd (Vec.push_back from) to (in_ g)).

(** Modelled from the spec: [Game::addEdge] is defined outside the sources
    at hand.  Section 4.1: it inserts [(from, to)] into [out[from]] and
    [in[to]] only if absent and returns whether an edge was actually
    added.  Absence is looked up in [out[from]], as the inlined copy of
    the same test in action 4 (line 152) does. *)
Definition addEdge (g : Game) (from to : Z) : Game * bool :=
  if decide (to ∈ outs g from) then (g, false)
  else (push_edge g from to, true).

(** Position of a node in the selection, its identity in the subgame. *)
Fixpoint index_of (keep : list Z) (v : Z) : option Z :=
  match keep with
  | [] => None
  | x :: rest => if decide (x = v) then Some 0 else Z.succ <$> index_of rest v
  end.

(** Carry an adjacency sequence over to the subgame: entries outside the
    selection are dropped, the others are renumbered. *)
Definition carry_over (keep : list Z) (l : list Z) : list Z :=
  omap (index_of keep) l.

(** Modelled from the spec: [Game::extract_subgame] is defined outside the
    sources at hand.  Section 4.1: it builds a new graph containing only
    the nodes of the selection, renumbered densely in the order the
    selection is given; edges with both endpoints retained are carried
    over, the others are dropped. *)
Definition extract_subgame (g : Game) (keep : list Z) : Game :=
  mkGame (Vec.size keep)
    ((λ v, owner_of g v) <$> keep)
    ((λ v, carry_over keep (outs g v)) <$> keep)
    ((λ v, carry_over keep (ins g v)) <$> keep).

(** ** Programs that call the sampler *)

(** A program either returns, or calls [rng(lo, hi)] and continues with
    the sampled value. *)
Inductive Prog (A : Type) : Type :=
| Ret (a : A)
| Rng (lo hi : Z) (k : Z → Prog A).
Arguments Ret {A} a.
Arguments Rng {A} lo hi k.

Fixpoint bind {A B} (p : Prog A) (f : A → Prog B) : Prog B :=
  match p with
  | Ret a => f a
  | Rng lo hi k => Rng lo hi (λ v, bind (k v) f)
  end.

#[global] Instance Prog_ret : MRet Prog := @Ret.
#[global] Instance Prog_bind : MBind Prog := λ A B f p, bind p f.

(** [rng(i, j)] *)
Definition rng (i j : Z) : Prog Z := Rng i j Ret.

(** [yields p a]: some run of [p] in which every sampler call has a
    legal range and answers within it returns [a]. *)
Inductive yields {A} : Prog A → A → Prop :=
| yields_ret a : yields (Ret a) a
| yields_call lo hi k v a :
    lo ≤ v ≤ hi → yields (k v) a → yields (Rng lo hi k) a.

(** [safe p]: along every run of [p], each sampler call is made with
    [lo ≤ hi], the precondition of [std::uniform_int_distribution]. *)
Inductive safe {A} : Prog A → Prop :=
| safe_ret a : safe (Ret a)
| safe_call lo hi k :
    lo ≤ hi → (∀ v, lo ≤ v ≤ hi → safe (k v)) → safe (Rng lo hi k).

(** The result of running a program against a finite list of sampler
    answers. *)
Inductive outcome (A : Type) : Type :=
| Done (a : A) (calls : list (Z * Z))
| BadRange (lo hi : Z) (calls : list (Z * Z))
| Stuck.
Arguments Done {A} a calls.
Arguments BadRange {A} lo hi calls.
Arguments Stuck {A}.

(** [run p answers calls]: each sampler call takes the next answer;
    [calls] accumulates the ranges asked so far, oldest first.  A call
    with [hi < lo] has no defined answer and the run stops there with
    [BadRange].  [Stuck] is not a behaviour of the program: it says that
    the list of answers ran out or held a number outside the range
    asked. *)
Fixpoint run {A} (p : Prog A) (answers : list Z) (calls : list (Z * Z))
  : outcome A :=
  match p with
  | Ret a => Done a calls
  | Rng lo hi k =>
      if decide (lo ≤ hi) then
        match answers with
        | v :: rest =>
            if decide (lo ≤ v ≤ hi) then run (k v) rest (calls ++ [(lo, hi)])
            else Stuck
        | [] => Stuck
        end
      else BadRange lo hi calls
  end.

(** All results of a program, one per combination of sampler answers,
    in the order of the answers.  When every call of [p] is uniform, each
    element of this list is equally likely. *)
Fixpoint support {A} (p : Prog A) : list A :=
  match p with
  | Ret a => [a]
  | Rng lo hi k => seqZ lo (hi - lo + 1) ≫= (λ v, support (k v))
  end.

(** ** The mutation loop of [main] *)

(** Action 0, lines 108-112: erase entry [edge] of [out[n]], then remove
    [n] from the [in] vector of the erased successor. *)
Definition erase_edge (g : Game) (n edge : Z) : Game :=
  let m := Vec.get 0 (outs g n) edge in
  let g1 := with_out g (Vec.upd (Vec.erase_at edge) n (out g)) in
  with_in g1 (Vec.upd (Vec.remove_all n) m (in_ g1)).

(** Action 1, lines 118-121: the two nested loops.  Each loop walks the
    vector as it is when the loop starts; under the guard of the branch
    ([out[n]] is a single node other than [n]) no call of [addEdge] made
    here touches [in[n]], and none can change [out[n]]. *)
Definition forward_edges (g : Game) (n : Z) : Game :=
  foldl (λ g1 from, foldl (λ g2 to, (addEdge g2 from to).1) g1 (outs g1 n))
    g (ins g n).

(** Lines 123-124 and 132-133: all nodes but [n], in increasing order. *)
Definition tokeep (g : Game) (n : Z) : list Z :=
  filter (λ i, n ≠ i) (seqZ 0 (n_nodes g)).

(** Lines 123-127 and 132-136: the game is replaced by its subgame. *)
Definition delete_node (g : Game) (n : Z) : Game :=
  extract_subgame g (tokeep g n).

(** The identity of a surviving node after node [n] is deleted, and the
    node of the old game behind an identity of the new one. *)
Definition shift (n i : Z) : Z := if decide (i < n) then i else i - 1.
Definition unshift (n j : Z) : Z := if decide (j < n) then j else j + 1.

(** Action 3, line 140. *)
Definition flip_owner (g : Game) (n : Z) : Game :=
  with_owner g (Vec.upd (λ o, 1 - o) n (owner g)).

(** Action 4, lines 147-156: remove [n] from [out[from]], then give
    [from] every successor of [n] it does not have yet. *)
Definition rewire (g : Game) (n from : Z) : Game :=
  let g1 := with_out g (Vec.upd (Vec.remove_all n) from (out g)) in
  foldl (λ g2 to, if decide (to ∈ outs g2 from) then g2
                  else push_edge g2 from to)
    g1 (outs g1 n).

(** Lines 89-100. *)
Definition choose_action (profile : Z) : Prog Z :=
  if decide (profile = 0) then rng 0 3
  else if decide (profile = 1) then
    action ← rng 0 2;
    mret (if decide (action = 1) then 3
          else if decide (action = 2) then 5 else action)
  else rng 0 5.

(** Lines 105-163: the chosen action on node [n]; returns the game and
    the budget [left] as they are after the attempt. *)
Definition perform (action n : Z) (g : Game) (left : Z) : Prog (Game * Z) :=
  if decide (action = 0) then
    if decide (Vec.size (outs g n) > 1) then
      edge ← rng 0 (Vec.size (outs g n) - 1);
      mret (erase_edge g n edge, left - 1)
    else mret (g, left)
  else if decide (action = 1) then
    if decide (Vec.size (outs g n) = 1 ∧ Vec.get 0 (outs g n) 0 ≠ n) then
      mret (delete_node (forward_edges g n) n, left - 1)
    else mret (g, left)
  else if decide (action = 2) then
    mret (delete_node g n, left - 1)
  else if decide (action = 3) then
    mret (flip_owner g n, left - 1)
  else if decide (action = 4) then
    if decide (Vec.size (ins g n) > 0) then
      k ← rng 0 (Vec.size (ins g n) - 1);
      let from := Vec.get 0 (ins g n) k in
      if decide (from ≠ n) then mret (rewire g n from, left - 1)
      else mret (g, left)
    else mret (g, left)
  else if decide (action = 5) then
    m ← rng 0 (n_nodes g - 1);
    let r := addEdge g n m in
    mret (r.1, if r.2 then left - 1 else left)
  else mret (g, left).

(** [applied g n action g']: action [action] on node [n] passed its
    guards and turned [g] into [g']. *)
Inductive applied (g : Game) (n : Z) : Z → Game → Prop :=
| applied_0 edge :
    Vec.size (outs g n) > 1 → 0 ≤ edge ≤ Vec.size (outs g n) - 1 →
    applied g n 0 (erase_edge g n edge)
| applied_1 :
    Vec.size (outs g n) = 1 → Vec.get 0 (outs g n) 0 ≠ n →
    applied g n 1 (delete_node (forward_edges g n) n)
| applied_2 : applied g n 2 (delete_node g n)
| applied_3 : applied g n 3 (flip_owner g n)
| applied_4 k :
    Vec.size (ins g n) > 0 → 0 ≤ k ≤ Vec.size (ins g n) - 1 →
    Vec.get 0 (ins g n) k ≠ n →
    applied g n 4 (rewire g n (Vec.get 0 (ins g n) k))
| applied_5 m :
    0 ≤ m ≤ n_nodes g - 1 → m ∉ outs g n →
    applied g n 5 (push_edge g n m).

(** The variables of the loop.  [successes] is a ghost counter that the
    source does not have: it counts the iterations that decremented
    [left]. *)
Record loop_state : Type := mkLoop {
  game : Game;
  left : Z;
  successes : Z
}.

(** Lines 75-163: one iteration of the [while] loop. *)
Definition iteration (profile : Z) (st : loop_state) : Prog loop_state :=
  n ← rng 0 (n_nodes (game st) - 1);
  action ← choose_action profile;
  r ← perform action n (game st) (left st);
  mret (mkLoop r.1 r.2
          (if decide (r.2 < left st) then successes st + 1 else successes st)).

(** Lines 74-164.  The loop need not terminate, so it is unrolled at most
    [fuel] times; [None] means the unrolling was cut short. *)
Fixpoint mutate (fuel : nat) (profile : Z) (st : loop_state)
  : Prog (option loop_state) :=
  if decide (left st > 0) then
    match fuel with
    | O => mret None
    | S fuel' => st' ← iteration profile st; mutate fuel' profile st'
    end
  else mret (Some st).

(** One turn of the [while] loop: the test of line 74 passes and the
    body runs. *)
Definition loop_step (profile : Z) (st st' : loop_state) : Prop :=
  left st > 0 ∧ yields (iteration profile st) st'.

(** The command line as [main] consults it before the output stage:
    [opts.count("modify")], [opts["modify"].as<int>()] and
    [opts.count("b")]. *)
Record Options : Type := mkOptions {
  count_modify : nat;
  modify : Z;
  count_b : nat
}.

(** Lines 66-72. *)
Definition initial_left (opts : Options) : Z :=
  if decide (count_modify opts ≠ 0%nat) then 1 else 0.

Section Main.

(** [getBottomSCC] comes from [scc.hpp]; only the fact that it is called
    on a sampled node matters here. *)
Variable getBottomSCC : Game → Z → list Z.

(** Lines 169-175. *)
Definition bottom_scc_stage (opts : Options) (g : Game) : Prog Game :=
  if decide (count_b opts ≠ 0%nat) then
    start ← rng 0 (n_nodes g - 1);
    mret (extract_subgame g (getBottomSCC g start))
  else mret g.

(** Lines 66-175: from the parsed game to the game handed to the
    priority transforms.  Without the modify option the source leaves
    [profile] uninitialised; the loop body, its only reader, does not run
    then. *)
Definition main (fuel : nat) (opts : Options) (g : Game)
  : Prog (option Game) :=
  r ← mutate fuel (modify opts) (mkLoop g (initial_left opts) 0);
  match r with
  | Some st => g' ← bottom_scc_stage opts (game st); mret (Some g')
  | None => mret None
  end.

End Main.

(** ** Invariants of the graph store (section 3 of the specification) *)

Definition node_of (g : Game) (n : Z) : Prop := 0 ≤ n < n_nodes g.

(** The three vectors have one slot per node. *)
Definition sized (g : Game) : Prop :=
  0 ≤ n_nodes g ∧ Vec.size (owner g) = n_nodes g ∧
  Vec.size (out g) = n_nodes g ∧ Vec.size (in_ g) = n_nodes g.

(** Every adjacency entry of a node is a node. *)
Definition closed (g : Game) : Prop :=
  ∀ n m, node_of g n → (m ∈ outs g n → node_of g m) ∧ (m ∈ ins g n → node_of g m).

(** I1 *)
Definition symmetric (g : Game) : Prop :=
  ∀ n m, node_of g n → node_of g m → m ∈ outs g n ↔ n ∈ ins g m.

(** I2 *)
Definition duplicate_free (g : Game) : Prop :=
  ∀ n, node_of g n → NoDup (outs g n) ∧ NoDup (ins g n).

Definition well_formed (g : Game) : Prop :=
  sized g ∧ closed g ∧ symmetric g ∧ duplicate_free g.

(** The invariants, quantified over the vectors rather than over all
    integers, so that they can be decided by evaluation. *)
Definition well_formed_check (g : Game) : Prop :=
  sized g ∧
  Forall (λ n,
    Forall (λ m, node_of g m ∧ n ∈ ins g m) (outs g n) ∧
    Forall (λ m, node_of g m ∧ n ∈ outs g m) (ins g n) ∧
    NoDup (outs g n) ∧ NoDup (ins g n)) (seqZ 0 (n_nodes g)).

#[global] Instance well_formed_check_dec g : Decision (well_formed_check g).
Proof. unfold well_formed_check, sized, node_of. apply _. Defined.

(** The failing preconditions as the specification lists them; [aux] is
    the answer to the sampler call the action makes, if it makes one: the
    position of the predecessor for action 4, the target node for action
    5. *)
Definition precondition_fails (g : Game) (n action aux : Z) : Prop :=
  (action = 0 ∧ Vec.size (outs g n) < 2) ∨
  (action = 1 ∧ (Vec.size (outs g n) ≠ 1 ∨ Vec.get 0 (outs g n) 0 = n)) ∨
  (action = 4 ∧ (Vec.size (ins g n) = 0 ∨ Vec.get 0 (ins g n) aux = n)) ∨
  (action = 5 ∧ aux ∈ outs g n).

(** The number of edges, counted in the forward vectors. *)
Definition edge_count (g : Game) : nat := sum_list_with length (out g).

(** ** Sample games *)

(** Two nodes, one edge [0 → 1]. *)
Definition g_edge : Game := mkGame 2 [0; 1] [[1]; []] [[]; [0]].

(** Three nodes, edges [0 → 1] and [1 → 2]. *)
Definition g_path : Game := mkGame 3 [0; 1; 0] [[1]; [2]; []] [[]; [0]; [1]].

(** One node, no edge. *)
Definition g_single : Game := mkGame 1 [0] [[]] [[]].

(** Four nodes, edges [0 → 1], [1 → 2], [2 → 0], [2 → 3]. *)
Definition g_cycle : Game :=
  mkGame 4 [0; 1; 0; 1] [[1]; [2]; [0; 3]; []] [[2]; [0]; [1]; [2]].

(** * Properties *)

(** ** Vectors *)

Module VecFacts.
Import Vec.

Section Facts.
Context {A : Type}.
Implicit Types (l : list A) (i j : Z) (f : A → A) (d : A).

Lemma size_nonneg l : 0 ≤ size l.
Proof. unfold size. lia. Qed.

Lemma size_upd f i l : size (upd f i l) = size l.
Proof. unfold upd, size. case_decide; [by rewrite length_alter | done]. Qed.

Lemma get_upd_ne d f i j l : i ≠ j → get d (upd f i l) j = get d l j.
Proof.
  intros Hij. unfold get, upd. repeat case_decide; try done.
  rewrite list_lookup_alter_ne; [done | lia].
Qed.

Lemma get_upd_eq d f i l :
  0 ≤ i < size l → get d (upd f i l) i = f (get d l i).
Proof.
  unfold size. intros [H0 Hlt]. unfold get, upd.
  case_decide; [| lia]. rewrite list_lookup_alter_eq.
  destruct (lookup_lt_is_Some_2 l (Z.to_nat i)) as [x ->]; [lia | done].
Qed.

Lemma get_upd d f i j l :
  0 ≤ i < size l →
  get d (upd f i l) j = if decide (j = i) then f (get d l j) else get d l j.
Proof.
  intros Hi. case_decide as Hj.
  - subst j. by apply get_upd_eq.
  - by apply get_upd_ne.
Qed.

Lemma get_lookup d l i x :
  0 ≤ i → l !! Z.to_nat i = Some x → get d l i = x.
Proof. intros Hi Hx. unfold get. case_decide; [by rewrite Hx | lia]. Qed.

Lemma lookup_get d l i :
  0 ≤ i < size l → l !! Z.to_nat i = Some (get d l i).
Proof.
  unfold size. intros [H0 Hlt]. unfold get. case_decide; [| lia].
  destruct (lookup_lt_is_Some_2 l (Z.to_nat i)) as [x ->]; [lia | done].
Qed.

Lemma get_elem_of (d : A) l i : 0 ≤ i < size l → get d l i ∈ l.
Proof. intros Hi. eapply list_elem_of_lookup_2, lookup_get, Hi. Qed.

Lemma size_push_back x l : size (push_back x l) = size l + 1.
Proof. unfold size, push_back. rewrite length_app. simpl. lia. Qed.

Lemma elem_of_push_back x y l : y ∈ push_back x l ↔ y ∈ l ∨ y = x.
Proof. unfold push_back. rewrite elem_of_app, list_elem_of_singleton. tauto. Qed.

Lemma NoDup_push_back x l : NoDup l → x ∉ l → NoDup (push_back x l).
Proof.
  intros Hl Hx. unfold push_back. apply NoDup_app.
  split_and!; [done | | apply NoDup_singleton].
  intros y Hy ->%list_elem_of_singleton. done.
Qed.

(** Erasing position [k] splits the vector around the erased entry. *)
Lemma erase_at_split (d : A) k l :
  0 ≤ k < size l →
  ∃ l1 l2, l = l1 ++ get d l k :: l2 ∧ size l1 = k ∧ erase_at k l = l1 ++ l2.
Proof.
  intros Hk. exists (take (Z.to_nat k) l), (drop (S (Z.to_nat k)) l).
  pose proof (lookup_get d l k Hk) as Hx. unfold size in *. split_and!.
  - by rewrite take_drop_middle.
  - rewrite length_take. lia.
  - unfold erase_at. case_decide; [apply delete_take_drop | lia].
Qed.

End Facts.

Lemma get_fmap {A B} (g : B → A) (d : A) (e : B) (k : list B) i :
  0 ≤ i < size k → get d (g <$> k) i = g (get e k i).
Proof.
  intros Hi. apply get_lookup; [lia |].
  by rewrite list_lookup_fmap, (lookup_get e k i Hi).
Qed.

Lemma elem_of_remove_all x y l : y ∈ remove_all x l ↔ y ∈ l ∧ y ≠ x.
Proof. unfold remove_all. rewrite list_elem_of_filter. tauto. Qed.

Lemma NoDup_remove_all x l : NoDup l → NoDup (remove_all x l).
Proof. apply NoDup_filter. Qed.

End VecFacts.

(** ** Programs *)

Lemma yields_bind {A B} (p : Prog A) (f : A → Prog B) b :
  yields (p ≫= f) b → ∃ a, yields p a ∧ yields (f a) b.
Proof.
  unfold mbind, Prog_bind. induction p as [a | lo hi k IH]; simpl; intros Hy.
  - exists a. split; [constructor | done].
  - inversion Hy as [| ? ? ? v ? Hv Hk]; subst.
    destruct (IH v Hk) as (a & Ha & Hb).
    exists a. split; [by econstructor | done].
Qed.

Lemma yields_bind_intro {A B} (p : Prog A) (f : A → Prog B) a b :
  yields p a → yields (f a) b → yields (p ≫= f) b.
Proof.
  unfold mbind, Prog_bind. induction 1 as [a | lo hi k v a Hv Hk IH]; simpl.
  - done.
  - intros Hb. econstructor; [done | by apply IH].
Qed.

Lemma yields_ret_inv {A} (a b : A) : yields (mret a) b → b = a.
Proof. inversion 1; by subst. Qed.

Lemma yields_rng_inv (lo hi v : Z) : yields (rng lo hi) v → lo ≤ v ≤ hi.
Proof.
  unfold rng. inversion 1 as [| ? ? ? w ? Hw Hk]; subst.
  inversion Hk; by subst.
Qed.

Lemma safe_bind {A B} (p : Prog A) (f : A → Prog B) :
  safe p → (∀ a, yields p a → safe (f a)) → safe (p ≫= f).
Proof.
  unfold mbind, Prog_bind. induction p as [a | lo hi k IH]; simpl; intros Hp Hf.
  - apply Hf. constructor.
  - inversion Hp as [| ? ? ? Hle Hk]; subst. constructor; [done |].
    intros v Hv. apply IH; [by apply Hk |].
    intros a Ha. apply Hf. by econstructor.
Qed.

Lemma safe_rng (lo hi : Z) : lo ≤ hi → safe (rng lo hi).
Proof. intros H. constructor; [done |]. intros; constructor. Qed.

(** A finished run is one of the runs [yields] speaks about. *)
Lemma run_yields {A} (p : Prog A) answers calls a calls' :
  run p answers calls = Done a calls' → yields p a.
Proof.
  revert answers calls.
  induction p as [b | lo hi k IH]; simpl; intros answers calls Hr.
  - injection Hr as -> _. constructor.
  - case_decide; [| done]. destruct answers as [| v rest]; [done |].
    case_decide; [| done]. econstructor; [done | by eapply IH].
Qed.

(** A safe program never runs into an illegal range. *)
Lemma safe_run {A} (p : Prog A) answers calls lo hi calls' :
  safe p → run p answers calls ≠ BadRange lo hi calls'.
Proof.
  intros Hs. revert answers calls.
  induction Hs as [a | l h k Hle Hk IH]; simpl; intros answers calls; [done |].
  case_decide; [| lia]. destruct answers as [| v rest]; [done |].
  case_decide; [by apply IH | done].
Qed.

(** ** The graph store: edge-level operations *)

Import VecFacts.

Ltac unpack_wf H :=
  let Hsz := fresh "Hsz" in let Hcl := fresh "Hcl" in
  let Hsym := fresh "Hsym" in let Hnd := fresh "Hnd" in
  destruct H as (Hsz & Hcl & Hsym & Hnd).

Lemma sized_out g n : sized g → node_of g n → 0 ≤ n < Vec.size (out g).
Proof. unfold sized, node_of. lia. Qed.

Lemma sized_in g n : sized g → node_of g n → 0 ≤ n < Vec.size (in_ g).
Proof. unfold sized, node_of. lia. Qed.

Lemma sized_owner g n : sized g → node_of g n → 0 ≤ n < Vec.size (owner g).
Proof. unfold sized, node_of. lia. Qed.

Lemma sized_with g w o i :
  sized g → Vec.size w = Vec.size (owner g) → Vec.size o = Vec.size (out g) →
  Vec.size i = Vec.size (in_ g) → sized (mkGame (n_nodes g) w o i).
Proof. unfold sized. simpl. lia. Qed.

Section PushEdge.
Variables (g : Game) (a b : Z).
Hypotheses (Hsz : sized g) (Ha : node_of g a) (Hb : node_of g b).

Lemma sized_push_edge : sized (push_edge g a b).
Proof. apply sized_with; [done..| |]; apply size_upd. Qed.

Lemma outs_push_edge k :
  outs (push_edge g a b) k =
  if decide (k = a) then Vec.push_back b (outs g k) else outs g k.
Proof. apply get_upd, sized_out; done. Qed.

Lemma ins_push_edge k :
  ins (push_edge g a b) k =
  if decide (k = b) then Vec.push_back a (ins g k) else ins g k.
Proof. apply get_upd, sized_in; done. Qed.

Lemma elem_of_outs_push_edge x y :
  y ∈ outs (push_edge g a b) x ↔ y ∈ outs g x ∨ (x = a ∧ y = b).
Proof.
  rewrite outs_push_edge. case_decide; rewrite ?elem_of_push_back; naive_solver.
Qed.

Lemma elem_of_ins_push_edge x y :
  x ∈ ins (push_edge g a b) y ↔ x ∈ ins g y ∨ (x = a ∧ y = b).
Proof.
  rewrite ins_push_edge. case_decide; rewrite ?elem_of_push_back; naive_solver.
Qed.

Lemma well_formed_push_edge :
  well_formed g → b ∉ outs g a → well_formed (push_edge g a b).
Proof.
  intros Hwf Hnew. unpack_wf Hwf. split_and!.
  - apply sized_push_edge.
  - intros n m Hn. destruct (Hcl n m Hn) as [Ho Hi].
    rewrite elem_of_outs_push_edge, elem_of_ins_push_edge.
    unfold node_of in *. simpl. naive_solver.
  - intros n m Hn Hm.
    rewrite elem_of_outs_push_edge, elem_of_ins_push_edge.
    specialize (Hsym n m Hn Hm). naive_solver.
  - intros n Hn. destruct (Hnd n Hn) as [Ho Hi].
    rewrite outs_push_edge, ins_push_edge. split; case_decide; subst; try done.
    + by apply NoDup_push_back.
    + apply NoDup_push_back; [done |]. intros Hin. apply Hnew. by apply Hsym.
Qed.

End PushEdge.

Lemma n_nodes_addEdge g a b : n_nodes (addEdge g a b).1 = n_nodes g.
Proof. unfold addEdge. by case_decide. Qed.

Lemma well_formed_addEdge g a b :
  well_formed g → node_of g a → node_of g b → well_formed (addEdge g a b).1.
Proof.
  intros Hwf Ha Hb. unfold addEdge. case_decide; simpl; [done |].
  apply well_formed_push_edge; [apply Hwf | done..].
Qed.

Lemma elem_of_outs_addEdge g a b x y :
  sized g → node_of g a → node_of g b →
  y ∈ outs (addEdge g a b).1 x ↔ y ∈ outs g x ∨ (x = a ∧ y = b).
Proof.
  intros Hsz Ha Hb. unfold addEdge. case_decide; simpl.
  - naive_solver.
  - by apply elem_of_outs_push_edge.
Qed.

Section EraseEdge.
Variables (g : Game) (n edge : Z).
Hypotheses (Hwf : well_formed g) (Hn : node_of g n).
Hypothesis Hedge : 0 ≤ edge < Vec.size (outs g n).

Local Abbreviation m := (Vec.get 0 (outs g n) edge).

Lemma erased_target_elem : m ∈ outs g n.
Proof. by apply get_elem_of. Qed.

Lemma erased_target_node : node_of g m.
Proof.
  unpack_wf Hwf. destruct (Hcl n m Hn) as [Ho _]. apply Ho, erased_target_elem.
Qed.

Lemma outs_erase_edge k :
  outs (erase_edge g n edge) k =
  if decide (k = n) then Vec.erase_at edge (outs g k) else outs g k.
Proof. apply get_upd, sized_out; [apply Hwf | done]. Qed.

Lemma ins_erase_edge k :
  ins (erase_edge g n edge) k =
  if decide (k = m) then Vec.remove_all n (ins g k) else ins g k.
Proof. apply get_upd, sized_in; [apply Hwf | apply erased_target_node]. Qed.

Lemma elem_of_erased x :
  x ∈ Vec.erase_at edge (outs g n) ↔ x ∈ outs g n ∧ x ≠ m.
Proof.
  destruct (erase_at_split 0 edge (outs g n) Hedge) as (l1 & l2 & Hl & _ & ->).
  unpack_wf Hwf. destruct (Hnd n Hn) as [Hno _]. revert Hl Hno.
  generalize (Vec.get 0 (outs g n) edge). generalize (outs g n).
  intros l y -> Hno. apply NoDup_app in Hno as (_ & H1 & [H2 _]%NoDup_cons).
  rewrite !elem_of_app, elem_of_cons. specialize (H1 x).
  rewrite elem_of_cons in H1. naive_solver.
Qed.

Lemma NoDup_erased : NoDup (Vec.erase_at edge (outs g n)).
Proof.
  destruct (erase_at_split 0 edge (outs g n) Hedge) as (l1 & l2 & Hl & _ & ->).
  unpack_wf Hwf. destruct (Hnd n Hn) as [Hno _]. revert Hl Hno.
  generalize (Vec.get 0 (outs g n) edge). generalize (outs g n).
  intros l y -> Hno.
  apply NoDup_app in Hno as (H0 & H1 & [H2 H3]%NoDup_cons).
  apply NoDup_app. split_and!; [done | | done].
  intros x Hx Hx'. apply (H1 x Hx). by right.
Qed.

Lemma well_formed_erase_edge : well_formed (erase_edge g n edge).
Proof.
  pose proof erased_target_node as Hm.
  pose proof Hwf as Hwf'. unpack_wf Hwf'. split_and!.
  - unfold sized, erase_edge in *. simpl. by rewrite !size_upd.
  - intros x y Hx. destruct (Hcl x y Hx) as [Ho Hi].
    rewrite outs_erase_edge, ins_erase_edge. unfold node_of in *. simpl.
    split; case_decide; subst;
      rewrite ?elem_of_erased, ?elem_of_remove_all; naive_solver.
  - intros x y Hx Hy. specialize (Hsym x y Hx Hy).
    rewrite outs_erase_edge, ins_erase_edge.
    repeat case_decide; subst;
      rewrite ?elem_of_erased, ?elem_of_remove_all; naive_solver.
  - intros x Hx. destruct (Hnd x Hx) as [Ho Hi].
    rewrite outs_erase_edge, ins_erase_edge. split; case_decide; subst; try done.
    + apply NoDup_erased.
    + by apply NoDup_remove_all.
Qed.

End EraseEdge.

Lemma well_formed_flip_owner g n : well_formed g → well_formed (flip_owner g n).
Proof.
  intros Hwf. unpack_wf Hwf. split_and!; [| done..].
  unfold sized, flip_owner in *. simpl. by rewrite size_upd.
Qed.

(** ** The graph store: subgame extraction *)

Lemma index_of_lookup keep v i :
  index_of keep v = Some i → 0 ≤ i ∧ keep !! Z.to_nat i = Some v.
Proof.
  revert i. induction keep as [| x rest IH]; simpl; intros i Hi; [done |].
  case_decide as Hx.
  - injection Hi as <-. by subst.
  - destruct (index_of rest v) as [j |] eqn:Hj; [| done].
    injection Hi as <-. destruct (IH j eq_refl) as [Hj0 Hl].
    split; [lia |]. by rewrite Z2Nat.inj_succ.
Qed.

Lemma lookup_index_of keep v i :
  NoDup keep → 0 ≤ i → keep !! Z.to_nat i = Some v → index_of keep v = Some i.
Proof.
  intros Hnd. revert i.
  induction Hnd as [| x rest Hx Hrest IH]; simpl; intros i Hi Hl; [done |].
  destruct (Z.to_nat i) as [| k] eqn:Hk; simpl in Hl.
  - injection Hl as ->. rewrite decide_True by done. f_equal. lia.
  - rewrite decide_False.
    + rewrite (IH (i - 1)); [simpl; f_equal; lia | lia |].
      by replace (Z.to_nat (i - 1)) with k by lia.
    + intros ->. apply Hx. by eapply list_elem_of_lookup_2.
Qed.

Lemma elem_of_carry_over keep l j :
  j ∈ carry_over keep l ↔ ∃ v, v ∈ l ∧ index_of keep v = Some j.
Proof. apply list_elem_of_omap. Qed.

Lemma NoDup_carry_over keep l : NoDup l → NoDup (carry_over keep l).
Proof.
  unfold carry_over. induction 1 as [| x l Hx Hl IH]; simpl; [constructor |].
  destruct (index_of keep x) as [j |] eqn:Hj; [| done].
  apply NoDup_cons. split; [| done].
  intros (y & Hy & Hj')%list_elem_of_omap.
  apply index_of_lookup in Hj as [_ Hj], Hj' as [_ Hj']. congruence.
Qed.

Section Extract.
Variables (g : Game) (keep : list Z).
Hypothesis Hkeep : NoDup keep.
Hypothesis Hnodes : ∀ v, v ∈ keep → node_of g v.

Local Abbreviation sub := (extract_subgame g keep).

Lemma node_of_extract j : node_of sub j ↔ 0 ≤ j < Vec.size keep.
Proof. done. Qed.

Lemma outs_extract j :
  node_of sub j → outs sub j = carry_over keep (outs g (Vec.get 0 keep j)).
Proof.
  intros Hj. exact (get_fmap (λ v, carry_over keep (outs g v)) [] 0 keep j Hj).
Qed.

Lemma ins_extract j :
  node_of sub j → ins sub j = carry_over keep (ins g (Vec.get 0 keep j)).
Proof.
  intros Hj. exact (get_fmap (λ v, carry_over keep (ins g v)) [] 0 keep j Hj).
Qed.

Lemma owner_of_extract j :
  node_of sub j → owner_of sub j = owner_of g (Vec.get 0 keep j).
Proof. intros Hj. exact (get_fmap (owner_of g) 0 0 keep j Hj). Qed.

Lemma selected_node j : node_of sub j → node_of g (Vec.get 0 keep j).
Proof. intros Hj. by apply Hnodes, get_elem_of. Qed.

Lemma elem_of_carry_over_selected l j :
  node_of sub j → j ∈ carry_over keep l ↔ Vec.get 0 keep j ∈ l.
Proof.
  intros Hj. rewrite elem_of_carry_over. split.
  - intros (v & Hv & [H0 Hl]%index_of_lookup).
    by rewrite (get_lookup 0 keep j v).
  - intros Hin. eexists. split; [done |].
    apply lookup_index_of; [done | apply Hj | by apply lookup_get].
Qed.

Lemma carry_over_node l j : j ∈ carry_over keep l → node_of sub j.
Proof.
  intros (v & _ & [H0 Hl]%index_of_lookup)%elem_of_carry_over.
  apply node_of_extract. apply lookup_lt_Some in Hl. unfold Vec.size. lia.
Qed.

Lemma sized_extract : sized sub.
Proof.
  unfold sized, sub, extract_subgame, Vec.size. simpl.
  rewrite !length_fmap. lia.
Qed.

Lemma well_formed_extract : well_formed g → well_formed sub.
Proof.
  intros Hwf. unpack_wf Hwf. split_and!.
  - apply sized_extract.
  - intros a b Ha. rewrite outs_extract, ins_extract by done.
    split; apply carry_over_node.
  - intros a b Ha Hb. rewrite outs_extract, ins_extract by done.
    rewrite !elem_of_carry_over_selected by done.
    apply Hsym; by apply selected_node.
  - intros a Ha. rewrite outs_extract, ins_extract by done.
    destruct (Hnd _ (selected_node a Ha)).
    split; by apply NoDup_carry_over.
Qed.

End Extract.

(** *** Deleting one node *)

Lemma filter_all {A} (P : A → Prop) `{∀ x, Decision (P x)} (l : list A) :
  (∀ x, x ∈ l → P x) → filter P l = l.
Proof.
  induction l as [| x l IH]; intros Hall; [done |].
  rewrite filter_cons_True by (apply Hall; left).
  f_equal. apply IH. intros y Hy. apply Hall. by right.
Qed.

Section DeleteNode.
Variables (g : Game) (n : Z).
Hypothesis Hn : node_of g n.

Lemma tokeep_split :
  tokeep g n = seqZ 0 n ++ seqZ (n + 1) (n_nodes g - n - 1).
Proof.
  unfold tokeep, node_of in *.
  replace (n_nodes g) with (n + (1 + (n_nodes g - n - 1))) at 1 by lia.
  rewrite !seqZ_app, !filter_app by lia. f_equal.
  - apply filter_all. intros x Hx%elem_of_seqZ. lia.
  - rewrite (seqZ_cons _ 1), seqZ_nil by lia.
    rewrite filter_cons_False by (intros Hne; apply Hne; lia). simpl.
    replace (0 + n + 1) with (n + 1) by lia.
    apply filter_all. intros x Hx%elem_of_seqZ. lia.
Qed.

Lemma elem_of_tokeep v : v ∈ tokeep g n ↔ node_of g v ∧ v ≠ n.
Proof.
  unfold tokeep, node_of. rewrite list_elem_of_filter, elem_of_seqZ.
  naive_solver lia.
Qed.

Lemma NoDup_tokeep : NoDup (tokeep g n).
Proof. apply NoDup_filter, NoDup_seqZ. Qed.

Lemma size_tokeep : Vec.size (tokeep g n) = n_nodes g - 1.
Proof.
  rewrite tokeep_split. unfold Vec.size, node_of in *.
  rewrite length_app, !length_seqZ. lia.
Qed.

Lemma n_nodes_delete_node : n_nodes (delete_node g n) = n_nodes g - 1.
Proof. apply size_tokeep. Qed.

Lemma get_tokeep j :
  0 ≤ j < n_nodes g - 1 → Vec.get 0 (tokeep g n) j = unshift n j.
Proof.
  intros Hj. apply get_lookup; [lia |]. rewrite tokeep_split.
  unfold unshift, node_of in *. case_decide.
  - rewrite lookup_app_l by (rewrite length_seqZ; lia).
    rewrite lookup_seqZ. lia.
  - rewrite lookup_app_r by (rewrite length_seqZ; lia).
    rewrite lookup_seqZ, length_seqZ. lia.
Qed.

Lemma node_of_delete_node j : node_of (delete_node g n) j ↔ 0 ≤ j < n_nodes g - 1.
Proof. unfold node_of. by rewrite n_nodes_delete_node. Qed.

Lemma well_formed_delete_node : well_formed g → well_formed (delete_node g n).
Proof.
  apply well_formed_extract; [apply NoDup_tokeep |].
  by intros v [Hv _]%elem_of_tokeep.
Qed.

End DeleteNode.

(** ** Action 1: forwarding the edges of a node *)

Lemma singleton_vector {A} (d : A) (l : list A) :
  Vec.size l = 1 → l = [Vec.get d l 0].
Proof.
  unfold Vec.size. destruct l as [| x [| y l]]; simpl; intros Hl; try lia.
  done.
Qed.

Lemma node_of_n_nodes g g' x : n_nodes g' = n_nodes g → node_of g' x ↔ node_of g x.
Proof. unfold node_of. by intros ->. Qed.

Section Forward.
Variables (n to : Z).

(** What the loops of lines 118-121 maintain, for the predecessors
    [preds] still to be visited. *)
Lemma forward_loop preds g :
  well_formed g → outs g n = [to] → node_of g to →
  (∀ x, x ∈ preds → node_of g x) →
  let g' :=
    foldl (λ g1 from, foldl (λ g2 t, (addEdge g2 from t).1) g1 (outs g1 n))
      g preds in
  well_formed g' ∧ n_nodes g' = n_nodes g ∧ owner g' = owner g ∧
  ∀ x y, y ∈ outs g' x ↔ y ∈ outs g x ∨ (y = to ∧ x ∈ preds).
Proof.
  revert g. induction preds as [| from preds IH]; simpl; intros g Hwf Hout Hto Hpreds.
  { split_and!; [done..|]. intros x y. rewrite elem_of_nil. tauto. }
  rewrite Hout. simpl.
  assert (node_of g from) as Hfrom by (apply Hpreds; left).
  set (g1 := (addEdge g from to).1).
  assert (n_nodes g1 = n_nodes g) as Hn1 by apply n_nodes_addEdge.
  assert (owner g1 = owner g) as Ho1.
  { unfold g1, addEdge. by case_decide. }
  assert (∀ x y, y ∈ outs g1 x ↔ y ∈ outs g x ∨ (x = from ∧ y = to)) as Hout1.
  { intros x y. apply elem_of_outs_addEdge; [apply Hwf | done..]. }
  assert (outs g1 n = [to]) as Hn1out.
  { unfold g1, addEdge. case_decide as Hin; simpl; [done |].
    rewrite outs_push_edge by (done || apply Hwf).
    case_decide; [| done]. subst from. rewrite Hout in Hin.
    destruct Hin. by left. }
  destruct (IH g1) as (Hwf' & Hn' & Ho' & Hout').
  - by apply well_formed_addEdge.
  - done.
  - by apply (node_of_n_nodes g).
  - intros x Hx. apply (node_of_n_nodes g); [done |]. apply Hpreds. by right.
  - split_and!; [done | congruence | congruence |].
    intros x y. rewrite Hout', Hout1, elem_of_cons. naive_solver.
Qed.

Lemma forward_edges_spec g :
  well_formed g → node_of g n → outs g n = [to] →
  well_formed (forward_edges g n) ∧
  n_nodes (forward_edges g n) = n_nodes g ∧
  owner (forward_edges g n) = owner g ∧
  ∀ x y, y ∈ outs (forward_edges g n) x ↔
         y ∈ outs g x ∨ (y = to ∧ x ∈ ins g n).
Proof.
  intros Hwf Hn Hout. pose proof Hwf as Hwf'. unpack_wf Hwf'.
  apply forward_loop; [done.. | |].
  - destruct (Hcl n to Hn) as [Ho _]. apply Ho. rewrite Hout. by left.
  - intros x Hx. destruct (Hcl n x Hn) as [_ Hi]. by apply Hi.
Qed.

End Forward.

(** ** What an attempt can do *)

(** Every run of [perform] either leaves the game and the budget as they
    were, or applies the action and takes one off the budget. *)
Ltac step_yields :=
  match goal with
  | H : yields (_ ≫= _) _ |- _ =>
      let v := fresh "v" in let Hv := fresh "Hv" in
      apply yields_bind in H as (v & Hv%yields_rng_inv & H)
  | H : yields (mret _) _ |- _ => apply yields_ret_inv in H; subst
  end.

Lemma perform_inv action n g left r :
  yields (perform action n g left) r →
  r = (g, left) ∨ ∃ g', applied g n action g' ∧ r = (g', left - 1).
Proof.
  unfold perform, addEdge. intros Hy.
  repeat first [case_decide | step_yields]; subst; simpl;
    try (by left); right; eexists; (split; [| done]).
  - by apply (applied_0 _ _ v).
  - apply applied_1; tauto.
  - apply applied_2.
  - apply applied_3.
  - by apply applied_4.
  - by apply applied_5.
Qed.

(** Every action but the fourth keeps the store well formed. *)
Lemma applied_well_formed g n action g' :
  well_formed g → node_of g n → applied g n action g' → action ≠ 4 →
  well_formed g'.
Proof.
  intros Hwf Hn Happ Hne.
  destruct Happ as [edge Hsz He | Hsz Hto | | | k Hsz Hk Hfrom | m Hm Hnew].
  - apply well_formed_erase_edge; [done | done | lia].
  - destruct (forward_edges_spec n _ g Hwf Hn (singleton_vector 0 _ Hsz))
      as (Hwf' & _).
    by apply well_formed_delete_node.
  - by apply well_formed_delete_node.
  - by apply well_formed_flip_owner.
  - done.
  - apply well_formed_push_edge; [apply Hwf | done | | done | done].
    unfold node_of. lia.
Qed.

(** ** The loop *)

Lemma iteration_inv profile st st' :
  yields (iteration profile st) st' →
  ∃ n action,
    0 ≤ n ≤ n_nodes (game st) - 1 ∧ yields (choose_action profile) action ∧
    (st' = st ∨
     ∃ g', applied (game st) n action g' ∧
           st' = mkLoop g' (left st - 1) (successes st + 1)).
Proof.
  unfold iteration. intros Hy.
  apply yields_bind in Hy as (n & Hn%yields_rng_inv & Hy).
  apply yields_bind in Hy as (action & Hact & Hy).
  apply yields_bind in Hy as (r & Hr%perform_inv & Hy).
  apply yields_ret_inv in Hy. exists n, action.
  split; [done |]. split; [done |].
  destruct Hr as [-> | (g' & Happ & ->)]; simpl in Hy.
  - left. rewrite decide_False in Hy by lia. subst st'. by destruct st.
  - right. exists g'. rewrite decide_True in Hy by lia. done.
Qed.

Lemma mutate_unfold fuel profile st :
  mutate fuel profile st =
  if decide (left st > 0) then
    match fuel with
    | O => mret None
    | S fuel' => iteration profile st ≫= mutate fuel' profile
    end
  else mret (Some st).
Proof. by destruct fuel. Qed.

(** A finished run of the unrolled loop is a sequence of turns that ends
    in a state failing the loop test. *)
Lemma mutate_inv fuel profile st st' :
  yields (mutate fuel profile st) (Some st') →
  rtc (loop_step profile) st st' ∧ ¬ left st' > 0.
Proof.
  revert st. induction fuel as [| fuel IH]; intros st Hy;
    rewrite mutate_unfold in Hy; case_decide.
  - by apply yields_ret_inv in Hy.
  - apply yields_ret_inv in Hy. injection Hy as ->.
    split; [apply rtc_refl | done].
  - apply yields_bind in Hy as (st1 & Hit & Hy).
    destruct (IH st1 Hy) as [Hrtc Hend]. split; [| done].
    eapply rtc_l; [| done]. by split.
  - apply yields_ret_inv in Hy. injection Hy as ->.
    split; [apply rtc_refl | done].
Qed.

(** The ghost counter and the budget move in step. *)
Lemma loop_budget profile st0 st :
  rtc (loop_step profile) st0 st →
  successes st + left st = successes st0 + left st0 ∧
  (0 ≤ left st0 → 0 ≤ left st).
Proof.
  induction 1 as [st | st st1 st2 [Hpos Hit] _ [IH1 IH2]]; [done |].
  apply iteration_inv in Hit as (n & action & _ & _ & [-> | (g' & _ & ->)]);
    simpl in *; split; lia.
Qed.

(** ** Checking the invariants of a given game *)

Lemma well_formed_check_sound g : well_formed_check g → well_formed g.
Proof.
  intros [Hsz Hall]. rewrite Forall_seqZ in Hall.
  assert (∀ n, node_of g n →
    (∀ m, m ∈ outs g n → node_of g m ∧ n ∈ ins g m) ∧
    (∀ m, m ∈ ins g n → node_of g m ∧ n ∈ outs g m) ∧
    NoDup (outs g n) ∧ NoDup (ins g n)) as H.
  { intros n Hn. destruct (Hall n) as (Ho & Hi & Hnd).
    - unfold node_of in Hn. lia.
    - split; [| split; [| exact Hnd]].
      + intros m Hm. exact (proj1 (Forall_forall _ _) Ho m Hm).
      + intros m Hm. exact (proj1 (Forall_forall _ _) Hi m Hm). }
  split; [exact Hsz |]. split; [| split].
  - intros n m Hn. destruct (H n Hn) as (Ho & Hi & _).
    split; intros Hm; [apply (Ho m Hm) | apply (Hi m Hm)].
  - intros n m Hn Hm.
    destruct (H n Hn) as (Ho & _), (H m Hm) as (_ & Hi & _).
    split; intros Hin; [apply (Ho m Hin) | apply (Hi n Hin)].
  - intros n Hn. destruct (H n Hn) as (_ & _ & Hnd). exact Hnd.
Qed.

Ltac check_well_formed :=
  apply well_formed_check_sound, (bool_decide_unpack _); vm_compute; exact I.

Lemma well_formed_g_edge : well_formed g_edge.
Proof. check_well_formed. Qed.

Lemma well_formed_g_path : well_formed g_path.
Proof. check_well_formed. Qed.

Lemma well_formed_g_single : well_formed g_single.
Proof. check_well_formed. Qed.

Lemma well_formed_g_cycle : well_formed g_cycle.
Proof. check_well_formed. Qed.

(** * The claims *)

(** ** Invariant preservation *)

(** C1.  The claim asks that every successful action, 0 to 5, leaves the
    adjacency vectors symmetric and free of duplicates.  Action 4 does
    not: on the well-formed game with the single edge [0 → 1], a run of
    the whole program under the full profile that samples node 1, action
    4 and predecessor 0 succeeds and ends with node 0 still listed in
    [in[1]] although [out[0]] is empty.  (The other five actions do keep
    the invariants: [applied_well_formed].) *)
Theorem action4_breaks_symmetry :
  well_formed g_edge ∧
  run (main (λ _ _, []) 1 (mkOptions 1 2 0) g_edge) [1; 4; 0] [] =
    Done (Some (mkGame 2 [0; 1] [[]; []] [[]; [0]])) [(0, 1); (0, 5); (0, 0)] ∧
  ¬ symmetric (mkGame 2 [0; 1] [[]; []] [[]; [0]]).
Proof.
  split_and!.
  - apply well_formed_g_edge.
  - reflexivity.
  - intros Hsym. specialize (Hsym 0 1). unfold node_of in Hsym. simpl in Hsym.
    assert (1 ∈ outs (mkGame 2 [0; 1] [[]; []] [[]; [0]]) 0) as Hin.
    { apply Hsym; [lia | lia |]. vm_compute. by left. }
    vm_compute in Hin. by apply elem_of_nil in Hin.
Qed.

(** ** Action 4 *)

(** The backward vector of [n] is never shortened by action 4: whoever
    was a predecessor of [n] is still listed as one afterwards. *)
Lemma ins_push_edge_mono g a b x k : x ∈ ins g k → x ∈ ins (push_edge g a b) k.
Proof.
  unfold ins, push_edge. simpl. unfold Vec.get, Vec.upd.
  repeat case_decide; try done.
  destruct (decide (Z.to_nat b = Z.to_nat k)) as [-> | Hne].
  - rewrite list_lookup_alter_eq. destruct (in_ g !! Z.to_nat k); simpl; [| done].
    intros Hx. apply elem_of_push_back. by left.
  - by rewrite list_lookup_alter_ne.
Qed.

Lemma rewire_keeps_predecessor g n from x :
  x ∈ ins g n → x ∈ ins (rewire g n from) n.
Proof.
  unfold rewire.
  set (g1 := with_out g _). change (ins g n) with (ins g1 n).
  generalize (outs g1 n). intros l. generalize g1. clear g1.
  induction l as [| to l IH]; simpl; intros g1 Hx; [done |].
  apply IH. case_decide; [done |]. by apply ins_push_edge_mono.
Qed.

(** C2.  The claim has action 4 remove the edge [(from, n)] from both
    [out[from]] and [in[n]].  The code removes it from [out[from]] only.
    On the game [0 → 1, 1 → 2, 2 → 0, 2 → 3], action 4 on node 2 with its
    predecessor 1 succeeds, node 1 takes over the successors 0 and 3 of
    node 2 and no longer has 2 among its own, yet [in[2]] still lists
    1. *)
Theorem action4_leaves_stale_predecessor :
  run (perform 4 2 g_cycle 1) [0] [] =
    Done (mkGame 4 [0; 1; 0; 1]
            [[1]; [0; 3]; [0; 3]; []] [[2; 1]; [0]; [1]; [2; 1]], 0) [(0, 0)] ∧
  Vec.get 0 (ins g_cycle 2) 0 = 1 ∧
  1 ∈ ins (rewire g_cycle 2 1) 2 ∧
  2 ∉ outs (rewire g_cycle 2 1) 1.
Proof.
  split_and!; [reflexivity | reflexivity | |].
  - apply rewire_keeps_predecessor. vm_compute. by left.
  - vm_compute. intros H. apply list_elem_of_In in H. simpl in H.
    intuition congruence.
Qed.

(** ** Profiles *)

(** C5.  Each profile turns the uniformly sampled slot into an action by
    a one-to-one map: slots 0..3 are actions 0, 1, 2, 3 under profile 0;
    slots 0, 1, 2 are actions 0, 3, 5 under profile 1 (slot 1 redirected
    to 3, slot 2 to 5); slots 0..5 are actions 0..5 under any other
    profile.  So each listed action is chosen with the same probability
    as its slot. *)
Theorem profile_mapping :
  support (choose_action 0) = [0; 1; 2; 3] ∧
  support (choose_action 1) = [0; 3; 5] ∧
  run (choose_action 1) [1] [] = Done 3 [(0, 2)] ∧
  run (choose_action 1) [2] [] = Done 5 [(0, 2)] ∧
  ∀ profile, profile ≠ 0 → profile ≠ 1 →
    support (choose_action profile) = [0; 1; 2; 3; 4; 5].
Proof.
  split_and!; try reflexivity.
  intros profile H0 H1. unfold choose_action.
  rewrite !decide_False by done. reflexivity.
Qed.

Lemma profile_mapping_witness :
  2 ≠ 0 ∧ 2 ≠ 1 ∧ support (choose_action 2) = [0; 1; 2; 3; 4; 5].
Proof.
  split_and!; [lia | lia |].
  apply (proj2 (proj2 (proj2 (proj2 profile_mapping))) 2); lia.
Defined.

(** ** Adding an edge *)

(** C6.  [addEdge n m] returns [true] exactly when [m] was not yet a
    successor of [n]; in that case [m] is appended to [out[n]], [n] to
    [in[m]] and nothing else changes; otherwise the game is returned as
    it was, the self-loop [n = m] included.  Action 5 with sampled target
    [m] returns the game of [addEdge] and takes one off the budget exactly
    when [addEdge] returned [true]. *)
Theorem addEdge_behaviour g n m left :
  sized g → node_of g n → node_of g m →
  let r := addEdge g n m in
  (r.2 = true ↔ m ∉ outs g n) ∧
  (m ∈ outs g n → r = (g, false)) ∧
  (m ∉ outs g n →
     outs r.1 n = outs g n ++ [m] ∧ ins r.1 m = ins g m ++ [n] ∧
     (∀ k, k ≠ n → outs r.1 k = outs g k) ∧
     (∀ k, k ≠ m → ins r.1 k = ins g k) ∧
     owner r.1 = owner g ∧ n_nodes r.1 = n_nodes g) ∧
  run (perform 5 n g left) [m] [] =
    Done (r.1, if r.2 then left - 1 else left) [(0, n_nodes g - 1)].
Proof.
  intros Hsz Hn Hm r. subst r. split_and!.
  - unfold addEdge. case_decide; simpl; naive_solver.
  - intros Hin. unfold addEdge. by rewrite decide_True.
  - intros Hnew. unfold addEdge. rewrite decide_False by done. simpl.
    split_and!; try done.
    + rewrite outs_push_edge by done. by rewrite decide_True.
    + rewrite ins_push_edge by done. by rewrite decide_True.
    + intros k Hk. rewrite outs_push_edge by done. by rewrite decide_False.
    + intros k Hk. rewrite ins_push_edge by done. by rewrite decide_False.
  - unfold node_of in Hm. unfold perform.
    rewrite !decide_False by lia. rewrite decide_True by done. simpl.
    rewrite decide_True by lia. rewrite decide_True by lia. done.
Qed.

Lemma addEdge_behaviour_witness :
  (addEdge g_edge 0 1 = (g_edge, false)) ∧
  (addEdge g_edge 1 1).2 = true ∧
  outs (addEdge g_edge 1 1).1 1 = [1] ∧
  ins (addEdge g_edge 1 1).1 1 = [0; 1].
Proof.
  assert (sized g_edge) as Hsz by (unfold sized, Vec.size; simpl; lia).
  assert (node_of g_edge 0) as H0 by (unfold node_of; simpl; lia).
  assert (node_of g_edge 1) as H1 by (unfold node_of; simpl; lia).
  destruct (addEdge_behaviour g_edge 0 1 1 Hsz H0 H1) as (_ & Hsame & _).
  destruct (addEdge_behaviour g_edge 1 1 1 Hsz H1 H1) as (Hret & _ & Hadd & _).
  assert (1 ∉ outs g_edge 1) as Hnew by (vm_compute; apply not_elem_of_nil).
  destruct (Hadd Hnew) as (Ho & Hi & _).
  split_and!.
  - apply Hsame. vm_compute. by left.
  - by apply Hret.
  - exact Ho.
  - exact Hi.
Defined.

(** ** Action 0 *)

(** C7.  On a node [n] with at least two outgoing edges action 0 can run
    and every run of it succeeds: for the sampled index [edge] and the
    successor [m] stored there, [out[n]] loses exactly that entry and
    keeps the others in order, [n] is gone from [in[m]], and every other
    adjacency vector, the owners and the node count are untouched. *)
Theorem action0_postcondition g n left :
  well_formed g → node_of g n → 2 ≤ Vec.size (outs g n) →
  (∃ r, yields (perform 0 n g left) r) ∧
  ∀ r, yields (perform 0 n g left) r →
    ∃ edge l1 l2,
      let m := Vec.get 0 (outs g n) edge in
      0 ≤ edge < Vec.size (outs g n) ∧
      r.2 = left - 1 ∧
      outs g n = l1 ++ m :: l2 ∧ Vec.size l1 = edge ∧
      outs r.1 n = l1 ++ l2 ∧
      Vec.size (outs r.1 n) = Vec.size (outs g n) - 1 ∧
      (n ∉ ins r.1 m) ∧
      ins r.1 m = Vec.remove_all n (ins g m) ∧
      (∀ k, k ≠ n → outs r.1 k = outs g k) ∧
      (∀ k, k ≠ m → ins r.1 k = ins g k) ∧
      owner r.1 = owner g ∧ n_nodes r.1 = n_nodes g.
Proof.
  intros Hwf Hn Hdeg. split.
  - exists (erase_edge g n 0, left - 1). unfold perform.
    rewrite decide_True by done. rewrite decide_True by lia.
    apply (yields_call _ _ _ 0); [lia | constructor].
  - intros r Hr. unfold perform in Hr.
    rewrite decide_True in Hr by done. rewrite decide_True in Hr by lia.
    apply yields_bind in Hr as (edge & He%yields_rng_inv & Hr).
    apply yields_ret_inv in Hr. subst r. cbn [fst snd].
    assert (0 ≤ edge < Vec.size (outs g n)) as Hedge by lia.
    destruct (erase_at_split 0 edge (outs g n) Hedge) as (l1 & l2 & Hl & Hl1 & Her).
    pose proof (outs_erase_edge g n edge Hwf Hn) as Ho.
    pose proof (ins_erase_edge g n edge Hwf Hn Hedge) as Hi.
    exists edge, l1, l2. split_and!; try done; try lia.
    + rewrite Ho, decide_True by done. done.
    + rewrite Ho, decide_True by done. rewrite Her.
      apply (f_equal Vec.size) in Hl. revert Hl. generalize (outs g n).
      intros l ->. unfold Vec.size. rewrite !length_app. simpl. lia.
    + rewrite Hi, decide_True by done. rewrite elem_of_remove_all. tauto.
    + rewrite Hi, decide_True by done. done.
    + intros k Hk. by rewrite Ho, decide_False.
    + intros k Hk. by rewrite Hi, decide_False.
Qed.

Lemma action0_postcondition_witness :
  let r := (mkGame 4 [0; 1; 0; 1] [[1]; [2]; [0]; []] [[2]; [0]; [1]; []], 0) in
  well_formed g_cycle ∧ node_of g_cycle 2 ∧ 2 ≤ Vec.size (outs g_cycle 2) ∧
  yields (perform 0 2 g_cycle 1) r ∧
  r.2 = 1 - 1 ∧ Vec.size (outs r.1 2) = Vec.size (outs g_cycle 2) - 1.
Proof.
  intros r.
  assert (node_of g_cycle 2) as Hn by (unfold node_of; simpl; lia).
  assert (2 ≤ Vec.size (outs g_cycle 2)) as Hdeg by (vm_compute; discriminate).
  assert (yields (perform 0 2 g_cycle 1) r) as Hr.
  { apply (run_yields _ [1] [] _ [(0, 1)]). reflexivity. }
  destruct (action0_postcondition g_cycle 2 1 well_formed_g_cycle Hn Hdeg)
    as [_ Hall].
  destruct (Hall r Hr) as (edge & l1 & l2 & _ & H2 & _ & _ & _ & Hsz & _).
  split_and!; [apply well_formed_g_cycle | exact Hn | exact Hdeg | exact Hr | exact H2 | exact Hsz].
Defined.

(** ** Deleting a node: the renumbering *)

Section Renumbering.
Variables (h : Game) (n : Z).
Hypothesis Hn : node_of h n.

Lemma shift_node a :
  node_of h a → a ≠ n →
  node_of (delete_node h n) (shift n a) ∧
  Vec.get 0 (tokeep h n) (shift n a) = a.
Proof.
  intros Ha Hne. assert (0 ≤ shift n a < n_nodes h - 1) as Hs.
  { unfold shift, node_of in *. case_decide; lia. }
  split; [by apply node_of_delete_node |].
  rewrite get_tokeep by done. unfold unshift, shift. repeat case_decide; lia.
Qed.

Lemma unshift_node j :
  node_of (delete_node h n) j →
  node_of h (unshift n j) ∧ unshift n j ≠ n ∧ shift n (unshift n j) = j.
Proof.
  intros Hj%node_of_delete_node; [| done].
  unfold unshift, shift, node_of in *. repeat case_decide; lia.
Qed.

Lemma elem_of_outs_delete_node a b :
  node_of h a → node_of h b → a ≠ n → b ≠ n →
  shift n b ∈ outs (delete_node h n) (shift n a) ↔ b ∈ outs h a.
Proof.
  intros Ha Hb Hane Hbne.
  destruct (shift_node a Ha Hane) as [Hsa Hga], (shift_node b Hb Hbne) as [Hsb Hgb].
  unfold delete_node in *. rewrite outs_extract by done.
  rewrite elem_of_carry_over_selected by (done || apply NoDup_tokeep).
  by rewrite Hga, Hgb.
Qed.

Lemma elem_of_ins_delete_node a b :
  node_of h a → node_of h b → a ≠ n → b ≠ n →
  shift n b ∈ ins (delete_node h n) (shift n a) ↔ b ∈ ins h a.
Proof.
  intros Ha Hb Hane Hbne.
  destruct (shift_node a Ha Hane) as [Hsa Hga], (shift_node b Hb Hbne) as [Hsb Hgb].
  unfold delete_node in *. rewrite ins_extract by done.
  rewrite elem_of_carry_over_selected by (done || apply NoDup_tokeep).
  by rewrite Hga, Hgb.
Qed.

Lemma owner_of_delete_node a :
  node_of h a → a ≠ n →
  owner_of (delete_node h n) (shift n a) = owner_of h a.
Proof.
  intros Ha Hane. destruct (shift_node a Ha Hane) as [Hsa Hga].
  unfold delete_node in *. rewrite owner_of_extract by done. by rewrite Hga.
Qed.

(** The vectors of the new game hold identities of the new game only. *)
Lemma closed_delete_node : closed (delete_node h n).
Proof.
  intros a b Ha. unfold delete_node in *.
  rewrite outs_extract, ins_extract by done. split; apply carry_over_node.
Qed.

End Renumbering.

(** The node count is not touched by the edge-level actions. *)
Lemma n_nodes_forward_edges g n : n_nodes (forward_edges g n) = n_nodes g.
Proof.
  unfold forward_edges. generalize (ins g n). intros preds. revert g.
  induction preds as [| from preds IH]; intros g; simpl; [done |].
  rewrite IH. generalize (outs g n). intros l. revert g.
  induction l as [| t l IHl]; intros g; simpl; [done |].
  rewrite IHl. apply n_nodes_addEdge.
Qed.

Lemma n_nodes_rewire g n from : n_nodes (rewire g n from) = n_nodes g.
Proof.
  unfold rewire. set (g1 := with_out g _).
  change (n_nodes g) with (n_nodes g1). generalize (outs g1 n).
  intros l. generalize g1. clear g1.
  induction l as [| t l IH]; intros g1; simpl; [done |].
  rewrite IH. by case_decide.
Qed.

(** ** Action 1 *)

(** C8.  Action 1 on node [n] takes one off the budget exactly when
    [out[n]] is a single node other than [n]; otherwise game and budget
    stay as they are.  On success every predecessor of [n] has received
    an edge to that single successor [to] (and no other edge was added),
    and the result is the subgame over the nodes [0, ..., n-1, n+1, ...]
    in increasing order.  On [0 → 1, 1 → 2], action 1 on node 1 yields
    the two-node game whose only edge is [0 → 1]. *)
Theorem action1_conformance g n left :
  well_formed g → node_of g n →
  let guard := Vec.size (outs g n) = 1 ∧ Vec.get 0 (outs g n) 0 ≠ n in
  let to := Vec.get 0 (outs g n) 0 in
  let g1 := forward_edges g n in
  (guard →
     perform 1 n g left =
       mret (extract_subgame g1 (seqZ 0 n ++ seqZ (n + 1) (n_nodes g - n - 1)),
             left - 1) ∧
     well_formed g1 ∧ n_nodes g1 = n_nodes g ∧
     ∀ x y, y ∈ outs g1 x ↔ y ∈ outs g x ∨ (y = to ∧ x ∈ ins g n)) ∧
  (¬ guard → perform 1 n g left = mret (g, left)) ∧
  run (perform 1 1 g_path 1) [] [] =
    Done (mkGame 2 [0; 0] [[1]; []] [[]; [0]], 0) [].
Proof.
  intros Hwf Hn guard to g1. split_and!.
  - intros Hg. pose proof Hg as [Hsz Hto].
    destruct (forward_edges_spec n to g Hwf Hn (singleton_vector 0 _ Hsz))
      as (Hwf1 & Hn1 & _ & Hout1).
    split_and!; try done.
    unfold perform. rewrite decide_False by done. rewrite decide_True by done.
    rewrite decide_True by done. unfold delete_node.
    rewrite tokeep_split by (by apply (node_of_n_nodes g)).
    by rewrite Hn1.
  - intros Hg. unfold perform. rewrite decide_False by done.
    rewrite decide_True by done. by rewrite decide_False.
  - reflexivity.
Qed.

Lemma action1_conformance_witness :
  well_formed g_path ∧ node_of g_path 1 ∧
  (Vec.size (outs g_path 1) = 1 ∧ Vec.get 0 (outs g_path 1) 0 ≠ 1) ∧
  perform 1 1 g_path 1 =
    mret (extract_subgame (forward_edges g_path 1)
            (seqZ 0 1 ++ seqZ (1 + 1) (n_nodes g_path - 1 - 1)), 1 - 1) ∧
  ¬ (Vec.size (outs g_path 2) = 1 ∧ Vec.get 0 (outs g_path 2) 0 ≠ 2) ∧
  perform 1 2 g_path 1 = mret (g_path, 1).
Proof.
  assert (node_of g_path 1) as H1 by (unfold node_of; simpl; lia).
  assert (node_of g_path 2) as H2 by (unfold node_of; simpl; lia).
  assert (Vec.size (outs g_path 1) = 1 ∧ Vec.get 0 (outs g_path 1) 0 ≠ 1) as Hg.
  { vm_compute. split; [reflexivity | discriminate]. }
  assert (¬ (Vec.size (outs g_path 2) = 1 ∧ Vec.get 0 (outs g_path 2) 0 ≠ 2)) as Hng.
  { vm_compute. intros [? _]. discriminate. }
  destruct (action1_conformance g_path 1 1 well_formed_g_path H1) as (Hyes & _).
  destruct (action1_conformance g_path 2 1 well_formed_g_path H2) as (_ & Hno & _).
  destruct (Hyes Hg) as (Hp & _).
  split_and!; [apply well_formed_g_path | exact H1 | apply Hg | apply Hg | exact Hp | exact Hng | exact (Hno Hng)].
Defined.

(** ** Dense indexing *)

(** C9.  When action 1 or 2 deletes node [n], the new game has one node
    less, one slot per node in each vector, and only identities of the
    new game in its adjacency vectors.  Every new identity is [shift n i]
    for a surviving node [i]: nodes below [n] keep their identity, nodes
    above move down by one, so their order is kept.  Owner and edges of
    a survivor are those it had just before the extraction ([h]: the
    game itself for action 2, the game with the forwarded edges for
    action 1), read through the renumbering. *)
Theorem dense_indexing g n action left g' :
  well_formed g → node_of g n → action = 1 ∨ action = 2 →
  yields (perform action n g left) (g', left - 1) →
  let h := if decide (action = 1) then forward_edges g n else g in
  n_nodes h = n_nodes g ∧
  n_nodes g' = n_nodes g - 1 ∧ sized g' ∧ closed g' ∧
  (∀ j, node_of g' j → ∃ i, node_of g i ∧ i ≠ n ∧ shift n i = j) ∧
  (∀ a, node_of g a → a ≠ n →
     shift n a = (if decide (a < n) then a else a - 1) ∧
     node_of g' (shift n a) ∧
     owner_of g' (shift n a) = owner_of h a) ∧
  (∀ a b, node_of g a → node_of g b → a ≠ n → b ≠ n →
     (a < b → shift n a < shift n b) ∧
     (shift n b ∈ outs g' (shift n a) ↔ b ∈ outs h a) ∧
     (shift n b ∈ ins g' (shift n a) ↔ b ∈ ins h a)).
Proof.
  intros Hwf Hn Hact Hy h.
  assert (n_nodes h = n_nodes g) as Hnh.
  { unfold h. case_decide; [apply n_nodes_forward_edges | done]. }
  assert (g' = delete_node h n) as ->.
  { unfold h. apply perform_inv in Hy as [Hy | (g2 & Happ & Hy)].
    - injection Hy as _ Hl. lia.
    - injection Hy as ->.
      destruct Hact as [-> | ->]; inversion Happ; subst; by simpl. }
  assert (node_of h n) as Hnh' by (by apply (node_of_n_nodes g)).
  assert (∀ x, node_of g x → node_of h x) as Hnode.
  { intros x Hx. by apply (node_of_n_nodes g). }
  split_and!.
  - done.
  - rewrite n_nodes_delete_node by done. lia.
  - apply sized_extract.
  - by apply closed_delete_node.
  - intros j Hj. destruct (unshift_node h n Hnh' j Hj) as (Hu & Hne & Hs).
    exists (unshift n j). split_and!; [| done..].
    by apply (node_of_n_nodes h g).
  - intros a Ha Hne. split_and!; [done | |].
    + by apply shift_node; auto.
    + by apply owner_of_delete_node; auto.
  - intros a b Ha Hb Hane Hbne. split_and!.
    + unfold shift. repeat case_decide; lia.
    + by apply elem_of_outs_delete_node; auto.
    + by apply elem_of_ins_delete_node; auto.
Qed.

Lemma dense_indexing_witness :
  let g' := mkGame 3 [0; 1; 0] [[1]; [2]; [0]] [[2]; [0]; [1]] in
  well_formed g_cycle ∧ node_of g_cycle 3 ∧
  yields (perform 2 3 g_cycle 1) (g', 1 - 1) ∧
  n_nodes g' = n_nodes g_cycle - 1 ∧ sized g' ∧ closed g'.
Proof.
  intros g'.
  assert (node_of g_cycle 3) as Hn by (unfold node_of; simpl; lia).
  assert (yields (perform 2 3 g_cycle 1) (g', 1 - 1)) as Hy.
  { apply (run_yields _ [] [] _ []). reflexivity. }
  destruct (dense_indexing g_cycle 3 2 1 g' well_formed_g_cycle Hn
              (or_intror eq_refl) Hy) as (_ & Hnn & Hsz & Hcl & _).
  split_and!; [apply well_formed_g_cycle | exact Hn | exact Hy | exact Hnn | exact Hsz | exact Hcl].
Defined.

(** ** The budget *)

(** From a state with one success left, the loop either has not
    succeeded yet and is where it started, or has applied one action to
    the starting game and stopped there. *)
Lemma single_success profile st0 st :
  rtc (loop_step profile) st0 st → left st0 = 1 →
  st = st0 ∨
  (left st = 0 ∧ successes st = successes st0 + 1 ∧
   ∃ n action,
     0 ≤ n ≤ n_nodes (game st0) - 1 ∧ yields (choose_action profile) action ∧
     applied (game st0) n action (game st)).
Proof.
  induction 1 as [st | st0 st1 st [Hpos Hit] Hrest IH]; intros Hleft; [by left |].
  apply iteration_inv in Hit
    as (n & action & Hn & Hact & [-> | (g' & Happ & ->)]); [by apply IH |].
  right. inversion Hrest as [| ? st2 ? [Hpos' _]]; subst; simpl in *; [| lia].
  split_and!; [lia | done |]. by exists n, action.
Qed.

(** Action 3 is offered by every profile and has no precondition, so a
    turn of the loop can always succeed on a game with a node. *)
Lemma choose_action_3 profile : yields (choose_action profile) 3.
Proof.
  unfold choose_action. repeat case_decide.
  - apply (yields_call _ _ _ 3); [lia | constructor].
  - apply (yields_call _ _ _ 1); [lia | constructor].
  - apply (yields_call _ _ _ 3); [lia | constructor].
Qed.

Lemma success_possible fuel profile g :
  1 ≤ n_nodes g →
  yields (mutate (S fuel) profile (mkLoop g 1 0))
    (Some (mkLoop (flip_owner g 0) 0 1)).
Proof.
  intros Hg. rewrite mutate_unfold. rewrite decide_True by (simpl; lia).
  apply (yields_bind_intro _ _ (mkLoop (flip_owner g 0) 0 1)).
  - unfold iteration.
    apply (yields_bind_intro _ _ 0); [apply (yields_call _ _ _ 0); [simpl; lia | constructor] |].
    apply (yields_bind_intro _ _ 3); [apply choose_action_3 |].
    apply (yields_bind_intro _ _ (flip_owner g 0, 0)); [| constructor].
    change (yields (Ret (flip_owner g 0, 0)) (flip_owner g 0, 0)). constructor.
  - rewrite mutate_unfold. rewrite decide_False by (simpl; lia). constructor.
Qed.

(** C3.  The budget is 1 when the modify option occurs on the command
    line, however often and whatever its value, and 0 otherwise; no
    command line makes it larger.  With budget 0 the loop returns the
    game as it is without a single sampler call.  With budget 1 every
    finished run of the loop has performed exactly one successful
    action, applied to the parsed game; and such a run exists as soon as
    the game has a node (the loop itself may retry for ever). *)
Theorem modify_budget opts fuel g :
  initial_left opts ≤ 1 ∧
  (count_modify opts = 0%nat →
     initial_left opts = 0 ∧
     mutate fuel (modify opts) (mkLoop g (initial_left opts) 0) =
       mret (Some (mkLoop g 0 0))) ∧
  (count_modify opts ≠ 0%nat →
     initial_left opts = 1 ∧
     ∀ st,
       yields (mutate fuel (modify opts) (mkLoop g (initial_left opts) 0))
         (Some st) →
       left st = 0 ∧ successes st = 1 ∧
       ∃ n action, applied g n action (game st)) ∧
  (count_modify opts ≠ 0%nat → 1 ≤ n_nodes g → fuel ≠ 0%nat →
     ∃ st,
       yields (mutate fuel (modify opts) (mkLoop g (initial_left opts) 0))
         (Some st)).
Proof.
  unfold initial_left. split_and!; cycle 3.
  { intros H1 Hg Hfuel. rewrite decide_True by done.
    destruct fuel as [| fuel]; [done |]. eexists. by apply success_possible. }
  - case_decide; lia.
  - intros H0. rewrite decide_False by (intros H; by apply H).
    split; [done |]. rewrite mutate_unfold. done.
  - intros H1. rewrite decide_True by done. split; [done |].
    intros st [Hrtc Hend]%mutate_inv.
    apply single_success in Hrtc as [-> | (Hl & Hs & n & action & _ & _ & Happ)];
      [simpl in Hend; lia | | done].
    simpl in *. split_and!; [done | lia |]. by exists n, action.
Qed.

Lemma modify_budget_witness :
  let opts := mkOptions 2 1 0 in
  let st := mkLoop (mkGame 2 [1; 1] [[1]; []] [[]; [0]]) 0 1 in
  count_modify opts ≠ 0%nat ∧
  yields (mutate 1 (modify opts) (mkLoop g_edge (initial_left opts) 0)) (Some st) ∧
  initial_left opts = 1 ∧ left st = 0 ∧ successes st = 1 ∧
  count_modify (mkOptions 0 1 0) = 0%nat ∧
  mutate 1 1 (mkLoop g_edge (initial_left (mkOptions 0 1 0)) 0) =
    mret (Some (mkLoop g_edge 0 0)).
Proof.
  intros opts st.
  assert (count_modify opts ≠ 0%nat) as H1 by (simpl; lia).
  assert (yields (mutate 1 (modify opts) (mkLoop g_edge (initial_left opts) 0))
            (Some st)) as Hy.
  { apply (run_yields _ [0; 1] [] _ [(0, 1); (0, 2)]). reflexivity. }
  destruct (modify_budget opts 1%nat g_edge) as (_ & _ & Hyes & _).
  destruct (modify_budget (mkOptions 0 1 0) 1%nat g_edge) as (_ & Hno & _).
  destruct (Hyes H1) as (Hinit & Hall). destruct (Hall st Hy) as (Hl & Hs & _).
  destruct (Hno eq_refl) as (_ & Hm).
  split_and!; [exact H1 | exact Hy | exact Hinit | exact Hl | exact Hs | reflexivity | exact Hm].
Defined.

(** C4.  At every state the loop reaches from a non-negative budget, the
    successes so far and the budget left add up to the target, so the
    loop test fails exactly when the successes equal the target, and a
    finished run has performed exactly that many.  An attempt whose
    precondition fails returns game and budget as they were; more
    generally an iteration that does not decrement the budget leaves the
    whole loop state as it was, so the next turn starts from it with new
    samples. *)
Theorem budget_accounting profile st0 st :
  0 ≤ left st0 → rtc (loop_step profile) st0 st →
  (successes st - successes st0) + left st = left st0 ∧
  (¬ left st > 0 ↔ successes st - successes st0 = left st0) ∧
  (∀ fuel st', yields (mutate fuel profile st0) (Some st') →
     successes st' - successes st0 = left st0) ∧
  (∀ n action aux r calls,
     precondition_fails (game st) n action aux →
     run (perform action n (game st) (left st)) [aux] [] = Done r calls →
     r = (game st, left st)) ∧
  (∀ st', yields (iteration profile st) st' → left st' = left st → st' = st).
Proof.
  intros H0 Hrtc. destruct (loop_budget _ _ _ Hrtc) as [Hsum Hpos].
  specialize (Hpos H0). split_and!.
  - lia.
  - lia.
  - intros fuel st' [Hrtc' Hend]%mutate_inv.
    destruct (loop_budget _ _ _ Hrtc') as [Hsum' Hpos']. specialize (Hpos' H0). lia.
  - intros n action aux r calls Hfail Hrun.
    unfold precondition_fails in Hfail. unfold perform, addEdge in Hrun.
    destruct Hfail as [[-> Hf] | [[-> Hf] | [[-> Hf] | [-> Hf]]]];
      simpl in Hrun; repeat case_decide; simpl in Hrun;
      repeat case_decide; simpl in Hrun; try congruence; try lia; try tauto.
  - intros st' Hit Hl.
    apply iteration_inv in Hit as (n & action & _ & _ & [-> | (g' & _ & ->)]);
      [done | simpl in Hl; lia].
Qed.

Lemma budget_accounting_witness :
  let st0 := mkLoop g_edge 1 0 in
  let st := mkLoop (mkGame 2 [1; 1] [[1]; []] [[]; [0]]) 0 1 in
  0 ≤ left st0 ∧ rtc (loop_step 1) st0 st ∧
  (successes st - successes st0) + left st = left st0 ∧
  precondition_fails (game st) 1 0 0 ∧
  run (perform 0 1 (game st) (left st)) [0] [] = Done (game st, left st) [].
Proof.
  intros st0 st.
  assert (0 ≤ left st0) as H0 by (simpl; lia).
  assert (rtc (loop_step 1) st0 st) as Hrtc.
  { apply rtc_once. split; [simpl; lia |].
    apply (run_yields _ [0; 1] [] _ [(0, 1); (0, 2)]). reflexivity. }
  destruct (budget_accounting 1 st0 st H0 Hrtc) as (Hsum & _ & _ & Hfail & _).
  assert (precondition_fails (game st) 1 0 0) as Hpre.
  { left. split; [reflexivity |]. vm_compute. reflexivity. }
  assert (run (perform 0 1 (game st) (left st)) [0] [] = Done (game st, left st) [])
    as Hrun by reflexivity.
  pose proof (Hfail 1 0 0 _ _ Hpre Hrun) as Hsame.
  split_and!; [exact H0 | exact Hrtc | exact Hsum | exact Hpre | exact Hrun].
Defined.

(** ** The ranges passed to the sampler *)

Lemma safe_choose_action profile : safe (choose_action profile).
Proof.
  unfold choose_action. repeat case_decide.
  - by apply safe_rng.
  - apply safe_bind; [by apply safe_rng |]. intros; constructor.
  - by apply safe_rng.
Qed.

Lemma safe_perform action n g left :
  1 ≤ n_nodes g → safe (perform action n g left).
Proof.
  intros Hg. unfold perform.
  repeat case_decide; try (by constructor);
    (apply safe_bind; [apply safe_rng; lia |]);
    intros; repeat case_decide; constructor.
Qed.

Lemma safe_iteration profile st :
  1 ≤ n_nodes (game st) → safe (iteration profile st).
Proof.
  intros Hg. unfold iteration.
  apply safe_bind; [apply safe_rng; lia |]. intros n _.
  apply safe_bind; [apply safe_choose_action |]. intros action _.
  apply safe_bind; [by apply safe_perform |]. intros; constructor.
Qed.

(** The loop of [main] starts with a budget of at most one: whenever its
    body runs, the game is still the parsed one. *)
Lemma safe_mutate fuel profile st :
  left st ≤ 1 → (left st > 0 → 1 ≤ n_nodes (game st)) →
  safe (mutate fuel profile st).
Proof.
  revert st. induction fuel as [| fuel IH]; intros st Hle Hpos;
    rewrite mutate_unfold; case_decide; try (by constructor).
  apply safe_bind; [by apply safe_iteration, Hpos |].
  intros st' (n & action & _ & _ & [-> | (g' & _ & ->)])%iteration_inv.
  - by apply IH.
  - apply IH; simpl; lia.
Qed.

Lemma applied_n_nodes g n action g' :
  0 ≤ n ≤ n_nodes g - 1 → applied g n action g' →
  n_nodes g' = n_nodes g ∨
  ((action = 1 ∨ action = 2) ∧ n_nodes g' = n_nodes g - 1).
Proof.
  intros Hn Happ.
  destruct Happ as [edge Hsz He | Hsz Hto | | | k Hsz Hk Hfrom | m Hm Hnew].
  - by left.
  - right. split; [by left |].
    rewrite n_nodes_delete_node, n_nodes_forward_edges; [done |].
    unfold node_of. rewrite n_nodes_forward_edges. lia.
  - right. split; [by right |]. apply n_nodes_delete_node. unfold node_of. lia.
  - by left.
  - left. apply n_nodes_rewire.
  - by left.
Qed.

Lemma choose_action_1 action :
  yields (choose_action 1) action → action = 0 ∨ action = 3 ∨ action = 5.
Proof.
  unfold choose_action. rewrite decide_False by done. rewrite decide_True by done.
  intros (slot & Hs%yields_rng_inv & Hy)%yields_bind.
  apply yields_ret_inv in Hy. repeat case_decide; lia.
Qed.

Lemma loop_stopped profile st0 st :
  rtc (loop_step profile) st0 st → ¬ left st0 > 0 → st = st0.
Proof. intros Hrtc Hstop. inversion Hrtc as [| ? ? ? [Hpos _]]; by subst. Qed.

(** The node count after the mutation phase of [main]. *)
Lemma mutate_n_nodes fuel opts g st :
  1 ≤ n_nodes g →
  count_modify opts = 0%nat ∨ modify opts = 1 ∨ 2 ≤ n_nodes g →
  yields (mutate fuel (modify opts) (mkLoop g (initial_left opts) 0)) (Some st) →
  1 ≤ n_nodes (game st).
Proof.
  intros Hg Hcase [Hrtc Hend]%mutate_inv. unfold initial_left in Hrtc.
  case_decide as Hm.
  - apply single_success in Hrtc
      as [-> | (_ & _ & n & action & Hn & Hact & Happ)]; [done | | done].
    simpl in *. apply applied_n_nodes in Happ as [-> | [Hdel ->]];
      [done | | exact Hn].
    destruct Hcase as [H0 | [H1 | H2]]; [done | | lia].
    rewrite H1 in Hact. apply choose_action_1 in Hact. lia.
  - apply loop_stopped in Hrtc as ->; [done | simpl; lia].
Qed.

(** Where the ranges are legal: every sampler call of [main] is made
    with [low ≤ high] when the parsed game has at least one node and, in
    case bottom-SCC selection follows a mutation under a profile other
    than 1, at least two nodes. *)
Theorem sampler_ranges getBottomSCC fuel opts g :
  1 ≤ n_nodes g →
  count_b opts = 0%nat ∨ count_modify opts = 0%nat ∨ modify opts = 1 ∨
    2 ≤ n_nodes g →
  safe (main getBottomSCC fuel opts g).
Proof.
  intros Hg Hcase. unfold main. apply safe_bind.
  - apply safe_mutate; simpl; [| done]. unfold initial_left. case_decide; lia.
  - intros [st |] Hy; [| constructor].
    apply safe_bind; [| intros; constructor].
    unfold bottom_scc_stage. case_decide as Hb; [| constructor].
    apply safe_bind; [| intros; constructor].
    apply safe_rng.
    assert (1 ≤ n_nodes (game st)); [| lia].
    eapply mutate_n_nodes; [done | | done].
    destruct Hcase as [? | Hcase]; [done | exact Hcase].
Qed.

Lemma sampler_ranges_witness :
  1 ≤ n_nodes g_edge ∧ 2 ≤ n_nodes g_edge ∧
  safe (main (λ _ _, [0]) 3 (mkOptions 1 0 1) g_edge).
Proof.
  assert (1 ≤ n_nodes g_edge) as H1 by (simpl; lia).
  assert (2 ≤ n_nodes g_edge) as H2 by (simpl; lia).
  split_and!; [exact H1 | exact H2 |].
  apply (sampler_ranges (λ _ _, [0]) 3 (mkOptions 1 0 1) g_edge H1).
  right. right. right. exact H2.
Defined.

(** C10.  The claim asks that every sampler call is made with
    [low ≤ high] and that the node-sampling call before bottom-SCC
    selection is only reached on a game with a node.  The code does not
    see to that: on the well-formed one-node game, a run under profile 0
    that samples node 0 and action 2 deletes the only node (lines
    130-137 have no guard), and with the bottom-SCC option line 171 then
    calls the sampler on the range [0, -1], outside the contract of
    [std::uniform_int_distribution].  The edge and predecessor sampling
    of actions 0 and 4 test for a non-empty vector first. *)
Lemma bottom_scc_sampling_on_empty_game :
  well_formed g_single ∧
  run (main (λ _ _, []) 1 (mkOptions 1 0 1) g_single) [0; 2] [] =
    BadRange 0 (-1) [(0, 0); (0, 3)] ∧
  ¬ safe (main (λ _ _, []) 1 (mkOptions 1 0 1) g_single).
Proof.
  split_and!.
  - apply well_formed_g_single.
  - reflexivity.
  - intros Hs. by apply (safe_run _ [0; 2] [] 0 (-1) [(0, 0); (0, 3)]) in Hs.
Qed.

(** * Further properties of the mutation engine *)

(** ** More on vectors *)

Lemma upd_fixed {A} (f : A → A) (i : Z) (l : list A) :
  (∀ x, l !! Z.to_nat i = Some x → f x = x) → Vec.upd f i l = l.
Proof.
  intros Hf. unfold Vec.upd. case_decide; [| done].
  rewrite <- (list_alter_id id l (Z.to_nat i)) at 2 by done.
  by apply list_alter_ext.
Qed.

Lemma upd_upd {A} (f h : A → A) (i : Z) (l : list A) :
  Vec.upd f i (Vec.upd h i l) = Vec.upd (f ∘ h) i l.
Proof.
  unfold Vec.upd. case_decide; [| done]. generalize (Z.to_nat i). intros k.
  revert k. induction l as [| x l IH]; intros [| k]; simpl; [done.. |].
  f_equal. apply IH.
Qed.

Lemma erase_at_push_back {A} (x : A) (l : list A) :
  Vec.erase_at (Vec.size l) (Vec.push_back x l) = l.
Proof.
  unfold Vec.erase_at, Vec.size, Vec.push_back.
  rewrite decide_True by lia. rewrite Nat2Z.id.
  rewrite (delete_middle l [] x). apply app_nil_r.
Qed.

Lemma remove_all_push_back x l :
  x ∉ l → Vec.remove_all x (Vec.push_back x l) = l.
Proof.
  intros Hx. unfold Vec.remove_all, Vec.push_back.
  rewrite filter_app, filter_cons_False, filter_nil by (intros H; by apply H).
  rewrite app_nil_r. apply filter_all. intros y Hy ->. done.
Qed.

Lemma size_remove_all x l :
  NoDup l → x ∈ l → Vec.size (Vec.remove_all x l) = Vec.size l - 1.
Proof.
  unfold Vec.size, Vec.remove_all.
  induction 1 as [| y l Hy Hl IH]; intros Hx; [by apply elem_of_nil in Hx |].
  destruct (decide (y = x)) as [-> | Hne].
  - rewrite filter_cons_False by (intros H; by apply H).
    rewrite filter_all by (intros z Hz ->; done). simpl. lia.
  - rewrite filter_cons_True by done. apply elem_of_cons in Hx as [-> | Hx]; [done |].
    simpl. specialize (IH Hx). apply list_elem_of_lookup_1 in Hx as [k Hk].
    apply lookup_lt_Some in Hk. lia.
Qed.

(** ** Action 4, in full *)

Section Rewire.
Variable from : Z.

(** The loop of lines 151-156, for the successors [l] still to visit. *)
Lemma rewire_loop l g1 :
  sized g1 → node_of g1 from → (∀ t, t ∈ l → node_of g1 t) →
  let g' :=
    foldl (λ g2 to, if decide (to ∈ outs g2 from) then g2
                    else push_edge g2 from to) g1 l in
  sized g' ∧ n_nodes g' = n_nodes g1 ∧ owner g' = owner g1 ∧
  (∀ x, x ≠ from → outs g' x = outs g1 x) ∧
  (∀ t, t ∈ outs g' from ↔ t ∈ outs g1 from ∨ t ∈ l) ∧
  (NoDup (outs g1 from) → NoDup (outs g' from)) ∧
  (∀ t, ins g' t =
        if decide (t ∈ l ∧ t ∉ outs g1 from) then ins g1 t ++ [from]
        else ins g1 t).
Proof.
  revert g1. induction l as [| to l IH]; simpl; intros g1 Hsz Hfrom Hl;
    cbv zeta in *.
  { split_and!; try done; intros t.
    all: try (rewrite elem_of_nil; tauto).
    all: rewrite decide_False; [done | rewrite elem_of_nil; tauto]. }
  assert (node_of g1 to) as Hto by (apply Hl; left).
  assert (∀ t, t ∈ l → node_of g1 t) as Hl' by (intros t Ht; apply Hl; by right).
  destruct (decide (to ∈ outs g1 from)) as [Hin | Hnew].
  - destruct (IH g1 Hsz Hfrom Hl') as (H1 & H2 & H3 & H4 & H5 & H6 & H7).
    split_and!; try done.
    + intros t. rewrite H5, elem_of_cons. naive_solver.
    + intros t. rewrite H7. apply decide_ext. rewrite elem_of_cons. naive_solver.
  - destruct (IH (push_edge g1 from to)) as (H1 & H2 & H3 & H4 & H5 & H6 & H7).
    { by apply sized_push_edge. }
    { done. }
    { done. }
    split_and!; try done.
    + intros x Hx. rewrite H4 by done. rewrite outs_push_edge by done.
      by rewrite decide_False.
    + intros t. rewrite H5, elem_of_outs_push_edge, elem_of_cons by done.
      naive_solver.
    + intros Hnd. apply H6. rewrite outs_push_edge by done.
      rewrite decide_True by done. by apply NoDup_push_back.
    + intros t. rewrite H7. rewrite ins_push_edge by done.
      rewrite outs_push_edge by done.
      rewrite (decide_True (P := from = from)) by done.
      destruct (decide (t = to)) as [-> | Hne].
      * rewrite decide_False by (rewrite elem_of_push_back; naive_solver).
        rewrite decide_True; [done |]. split; [by left | done].
      * apply decide_ext. rewrite elem_of_push_back, elem_of_cons. naive_solver.
Qed.

End Rewire.

Section RewireSpec.
Variables (g : Game) (n from : Z).
Hypotheses (Hwf : well_formed g) (Hn : node_of g n) (Hfrom : node_of g from).
Hypothesis Hne : from ≠ n.

(** Lines 147-156 on a well-formed game, vector by vector. *)
Lemma rewire_spec :
  sized (rewire g n from) ∧
  n_nodes (rewire g n from) = n_nodes g ∧
  owner (rewire g n from) = owner g ∧
  (∀ x, x ≠ from → outs (rewire g n from) x = outs g x) ∧
  (∀ t, t ∈ outs (rewire g n from) from ↔
        (t ∈ outs g from ∧ t ≠ n) ∨ t ∈ outs g n) ∧
  NoDup (outs (rewire g n from) from) ∧
  (∀ t, ins (rewire g n from) t =
        if decide (t ∈ outs g n ∧ (t ∉ outs g from ∨ t = n))
        then ins g t ++ [from] else ins g t).
Proof.
  pose proof Hwf as Hwf'. unpack_wf Hwf'. unfold rewire.
  set (g1 := with_out g (Vec.upd (Vec.remove_all n) from (out g))).
  assert (sized g1) as Hsz1.
  { unfold sized, g1 in *. simpl. by rewrite size_upd. }
  assert (∀ x, outs g1 x =
               if decide (x = from) then Vec.remove_all n (outs g x)
               else outs g x) as Hout1.
  { intros x. apply get_upd, sized_out; done. }
  assert (outs g1 n = outs g n) as Hn1.
  { rewrite Hout1. by rewrite decide_False. }
  destruct (rewire_loop from (outs g1 n) g1) as (H1 & H2 & H3 & H4 & H5 & H6 & H7).
  - done.
  - done.
  - intros t Ht. rewrite Hn1 in Ht. destruct (Hcl n t Hn) as [Ho _]. by apply Ho.
  - rewrite Hn1 in *. split_and!; try done.
    + intros x Hx. rewrite H4 by done. rewrite Hout1. by rewrite decide_False.
    + intros t. rewrite H5, Hout1. rewrite decide_True by done.
      by rewrite elem_of_remove_all.
    + apply H6. rewrite Hout1, decide_True by done.
      apply NoDup_remove_all. by destruct (Hnd from Hfrom).
    + intros t. rewrite H7. apply decide_ext. rewrite Hout1.
      rewrite decide_True by done. rewrite elem_of_remove_all.
      destruct (decide (t = n)); naive_solver.
Qed.

Lemma rewire_closed : closed (rewire g n from).
Proof.
  destruct rewire_spec as (_ & Hnn & _ & Hoth & Hout & _ & Hin).
  pose proof Hwf as Hwf'. unpack_wf Hwf'.
  intros a b Ha. apply (node_of_n_nodes g) in Ha; [| done].
  rewrite !(node_of_n_nodes g (rewire g n from)) by done. split.
  - destruct (decide (a = from)) as [-> | Hx].
    + rewrite Hout. intros [[Hb _] | Hb].
      * destruct (Hcl from b Hfrom) as [Ho _]. by apply Ho.
      * destruct (Hcl n b Hn) as [Ho _]. by apply Ho.
    + rewrite Hoth by done. destruct (Hcl a b Ha) as [Ho _]. apply Ho.
  - rewrite Hin. destruct (Hcl a b Ha) as [_ Hi].
    case_decide; [| done]. rewrite elem_of_app, list_elem_of_singleton.
    intros [Hb | ->]; [by apply Hi | done].
Qed.

(** Every forward edge has its backward entry; a backward entry without
    forward edge can only be [from] in [in[n]]. *)
Lemma rewire_forward a b :
  node_of g a → node_of g b →
  b ∈ outs (rewire g n from) a → a ∈ ins (rewire g n from) b.
Proof.
  destruct rewire_spec as (_ & _ & _ & Hoth & Hout & _ & Hin).
  pose proof Hwf as Hwf'. unpack_wf Hwf'. intros Ha Hb.
  rewrite Hin. destruct (decide (a = from)) as [-> | Hx].
  - rewrite Hout. intros [[Hb' Hbn] | Hb'].
    + apply (Hsym from b Hfrom Hb) in Hb'.
      case_decide; [apply elem_of_app; by left | done].
    + case_decide as Hc.
      * apply elem_of_app. right. by left.
      * apply (Hsym from b Hfrom Hb). destruct (decide (b ∈ outs g from)); naive_solver.
  - rewrite Hoth by done. intros Hb'%(Hsym a b Ha Hb).
    case_decide; [apply elem_of_app; by left | done].
Qed.

Lemma rewire_backward a b :
  node_of g a → node_of g b →
  a ∈ ins (rewire g n from) b →
  b ∈ outs (rewire g n from) a ∨ (a = from ∧ b = n ∧ n ∉ outs g n).
Proof.
  destruct rewire_spec as (_ & _ & _ & Hoth & Hout & _ & Hin).
  pose proof Hwf as Hwf'. unpack_wf Hwf'. intros Ha Hb.
  rewrite Hin. intros Hab.
  assert (a ∈ ins g b ∨ (a = from ∧ b ∈ outs g n)) as [Hold | [-> Hnew]].
  { case_decide as Hc; [| by left].
    apply elem_of_app in Hab as [? | ->%list_elem_of_singleton]; [by left |].
    right. tauto. }
  - apply (Hsym a b Ha Hb) in Hold.
    destruct (decide (a = from)) as [-> | Hx]; [| left; by rewrite Hoth].
    rewrite Hout. destruct (decide (b = n)) as [-> | Hbn]; [| left; by left].
    destruct (decide (n ∈ outs g n)); [left; by right | by right].
  - left. rewrite Hout. by right.
Qed.

End RewireSpec.

(** A successful action 4 is [rewire] on a predecessor other than [n]. *)
Lemma perform4_inv g n left g' :
  well_formed g → node_of g n →
  yields (perform 4 n g left) (g', left - 1) →
  ∃ from, from ∈ ins g n ∧ node_of g from ∧ from ≠ n ∧ g' = rewire g n from.
Proof.
  intros Hwf Hn Hy. apply perform_inv in Hy as [Hy | (g2 & Happ & Hy)].
  { injection Hy as _ Hl. lia. }
  injection Hy as ->. inversion Happ as [| | | | k Hsz Hk Hfrom |]; subst.
  assert (Vec.get 0 (ins g n) k ∈ ins g n) as Hin by (apply get_elem_of; lia).
  eexists. split_and!; [exact Hin | | done | done].
  unpack_wf Hwf. destruct (Hcl n (Vec.get 0 (ins g n) k) Hn) as [_ Hi].
  by apply Hi.
Qed.

(** The game action 4 makes of [g_cycle] on node 2 (predecessor 1). *)
Lemma action4_on_g_cycle :
  yields (perform 4 2 g_cycle 1)
    (mkGame 4 [0; 1; 0; 1] [[1]; [0; 3]; [0; 3]; []] [[2; 1]; [0]; [1]; [2; 1]],
     1 - 1).
Proof. apply (run_yields _ [0] [] _ [(0, 0)]). reflexivity. Qed.

Lemma node_2_of_g_cycle : node_of g_cycle 2.
Proof. unfold node_of. simpl. lia. Qed.

(** X1.  A successful action 4 on node [n] of a well-formed game picks a
    predecessor [from] other than [n]; afterwards the successors of
    [from] are its old ones without [n], together with all successors of
    [n], without duplicates; no other forward vector changes; [from] is
    appended to the backward vector of exactly those successors of [n]
    that it did not have yet (of [n] itself if [n] is its own successor);
    owners and node count are kept and every entry is still a node. *)
Theorem action4_successors g n left g' :
  well_formed g → node_of g n →
  yields (perform 4 n g left) (g', left - 1) →
  ∃ from, from ∈ ins g n ∧ from ≠ n ∧
    (∀ t, t ∈ outs g' from ↔ (t ∈ outs g from ∧ t ≠ n) ∨ t ∈ outs g n) ∧
    NoDup (outs g' from) ∧
    (∀ x, x ≠ from → outs g' x = outs g x) ∧
    (∀ t, ins g' t =
          if decide (t ∈ outs g n ∧ (t ∉ outs g from ∨ t = n))
          then ins g t ++ [from] else ins g t) ∧
    owner g' = owner g ∧ n_nodes g' = n_nodes g ∧ sized g' ∧ closed g'.
Proof.
  intros Hwf Hn Hy.
  destruct (perform4_inv g n left g' Hwf Hn Hy) as (from & Hin & Hfrom & Hne & ->).
  destruct (rewire_spec g n from Hwf Hn Hfrom Hne)
    as (Hsz & Hnn & Hown & Hoth & Hout & Hnd & Hins).
  exists from. split_and!; try done. by apply rewire_closed.
Qed.

Lemma action4_successors_witness :
  let g' := mkGame 4 [0; 1; 0; 1] [[1]; [0; 3]; [0; 3]; []]
              [[2; 1]; [0]; [1]; [2; 1]] in
  well_formed g_cycle ∧ node_of g_cycle 2 ∧
  yields (perform 4 2 g_cycle 1) (g', 1 - 1) ∧
  ∃ from, from ∈ ins g_cycle 2 ∧ from ≠ 2 ∧ NoDup (outs g' from) ∧ closed g'.
Proof.
  intros g'.
  destruct (action4_successors g_cycle 2 1 g' well_formed_g_cycle
              node_2_of_g_cycle action4_on_g_cycle)
    as (from & Hin & Hne & _ & Hnd & _ & _ & _ & _ & _ & Hcl).
  split_and!; [apply well_formed_g_cycle | apply node_2_of_g_cycle
              | apply action4_on_g_cycle |].
  exists from. split_and!; [exact Hin | exact Hne | exact Hnd | exact Hcl].
Defined.

(** X2.  After a successful action 4 every forward edge still has its
    backward entry.  The converse can fail for one pair only: [from] is
    still listed in [in[n]], and [n] is a successor of [from] afterwards
    exactly when [n] is its own successor. *)
Theorem action4_symmetry_defect g n left g' :
  well_formed g → node_of g n →
  yields (perform 4 n g left) (g', left - 1) →
  ∃ from, from ∈ ins g n ∧ from ≠ n ∧
    (∀ a b, node_of g a → node_of g b → b ∈ outs g' a → a ∈ ins g' b) ∧
    (∀ a b, node_of g a → node_of g b → a ∈ ins g' b →
       b ∈ outs g' a ∨ (a = from ∧ b = n ∧ n ∉ outs g n)) ∧
    from ∈ ins g' n ∧
    (n ∈ outs g' from ↔ n ∈ outs g n).
Proof.
  intros Hwf Hn Hy.
  destruct (perform4_inv g n left g' Hwf Hn Hy) as (from & Hin & Hfrom & Hne & ->).
  destruct (rewire_spec g n from Hwf Hn Hfrom Hne) as (_ & _ & _ & _ & Hout & _).
  exists from. split_and!; try done.
  - intros a b. by apply rewire_forward.
  - intros a b. by apply rewire_backward.
  - by apply rewire_keeps_predecessor.
  - rewrite Hout. naive_solver.
Qed.

Lemma action4_symmetry_defect_witness :
  let g' := mkGame 4 [0; 1; 0; 1] [[1]; [0; 3]; [0; 3]; []]
              [[2; 1]; [0]; [1]; [2; 1]] in
  well_formed g_cycle ∧ node_of g_cycle 2 ∧
  yields (perform 4 2 g_cycle 1) (g', 1 - 1) ∧
  ∃ from, from ∈ ins g_cycle 2 ∧ from ≠ 2 ∧ from ∈ ins g' 2 ∧
          (2 ∈ outs g' from ↔ 2 ∈ outs g_cycle 2).
Proof.
  intros g'.
  destruct (action4_symmetry_defect g_cycle 2 1 g' well_formed_g_cycle
              node_2_of_g_cycle action4_on_g_cycle)
    as (from & Hin & Hne & _ & _ & Hstale & Hiff).
  split_and!; [apply well_formed_g_cycle | apply node_2_of_g_cycle
              | apply action4_on_g_cycle |].
  exists from. split_and!; [exact Hin | exact Hne | exact Hstale | exact Hiff].
Defined.

(** What [rewire] does to the invariants, by whether [n] is its own
    successor. *)
Lemma rewire_breaks g n from :
  well_formed g → node_of g n → node_of g from → from ≠ n → from ∈ ins g n →
  ¬ well_formed (rewire g n from) ∧
  (n ∉ outs g n →
     ¬ symmetric (rewire g n from) ∧ duplicate_free (rewire g n from)) ∧
  (n ∈ outs g n →
     symmetric (rewire g n from) ∧ ¬ NoDup (ins (rewire g n from) n)).
Proof.
  intros Hwf Hn Hfrom Hne Hin.
  destruct (rewire_spec g n from Hwf Hn Hfrom Hne)
    as (Hsz & Hnn & Hown & Hoth & Hout & Hnd' & Hins).
  pose proof Hwf as Hwf'. unpack_wf Hwf'.
  assert (∀ x, node_of (rewire g n from) x ↔ node_of g x) as Hnode.
  { intros x. by apply node_of_n_nodes. }
  assert (n ∉ outs g n → ¬ symmetric (rewire g n from) ∧
                          duplicate_free (rewire g n from)) as Hno.
  { intros Hself. split.
    - intros Hs. apply Hself.
      assert (n ∈ outs (rewire g n from) from) as Hbad.
      { apply Hs; [by apply Hnode.. |]. by apply rewire_keeps_predecessor. }
      apply Hout in Hbad. naive_solver.
    - intros x Hx%Hnode. split.
      + destruct (decide (x = from)) as [-> | Hxf]; [done |].
        rewrite Hoth by done. by destruct (Hnd x Hx).
      + rewrite Hins. destruct (Hnd x Hx) as [_ Hndi].
        case_decide as Hc; [| done]. apply NoDup_app.
        split_and!; [done | | apply NoDup_singleton].
        intros y Hyx ->%list_elem_of_singleton.
        apply (Hsym from x Hfrom Hx) in Hyx.
        destruct Hc as [Hxn [Hc | ->]]; done. }
  assert (n ∈ outs g n → symmetric (rewire g n from) ∧
                          ¬ NoDup (ins (rewire g n from) n)) as Hyes.
  { intros Hself. split.
    - intros a b Ha%Hnode Hb%Hnode. split.
      + by apply rewire_forward.
      + intros Hab. destruct (rewire_backward g n from Hwf Hn Hfrom Hne a b Ha Hb Hab)
          as [? | (_ & _ & ?)]; done.
    - rewrite Hins. rewrite decide_True by tauto.
      intros (_ & Hdis & _)%NoDup_app. apply (Hdis from Hin). by left. }
  split_and!; [| done | done].
  intros Hwf'. unpack_wf Hwf'.
  destruct (decide (n ∈ outs g n)) as [Hself | Hself].
  - destruct (Hyes Hself) as [_ Hdup]. apply Hdup.
    by destruct (Hnd0 n (proj2 (Hnode n) Hn)).
  - by destruct (Hno Hself).
Qed.

(** X3.  No successful action 4 leaves a well-formed game well formed.
    If [n] is not its own successor, the vectors stay free of duplicates
    but are no longer symmetric; if it is, they stay symmetric but
    [in[n]] lists the chosen predecessor twice. *)
Theorem action4_never_well_formed g n left g' :
  well_formed g → node_of g n →
  yields (perform 4 n g left) (g', left - 1) →
  ¬ well_formed g' ∧
  (n ∉ outs g n → ¬ symmetric g' ∧ duplicate_free g') ∧
  (n ∈ outs g n → symmetric g' ∧ ¬ NoDup (ins g' n)).
Proof.
  intros Hwf Hn Hy.
  destruct (perform4_inv g n left g' Hwf Hn Hy) as (from & Hin & Hfrom & Hne & ->).
  by apply rewire_breaks.
Qed.

Lemma action4_never_well_formed_witness :
  let g' := mkGame 4 [0; 1; 0; 1] [[1]; [0; 3]; [0; 3]; []]
              [[2; 1]; [0]; [1]; [2; 1]] in
  well_formed g_cycle ∧ node_of g_cycle 2 ∧
  yields (perform 4 2 g_cycle 1) (g', 1 - 1) ∧
  ¬ well_formed g'.
Proof.
  intros g'.
  destruct (action4_never_well_formed g_cycle 2 1 g' well_formed_g_cycle
              node_2_of_g_cycle action4_on_g_cycle) as (Hbad & _).
  split_and!; [apply well_formed_g_cycle | apply node_2_of_g_cycle
              | apply action4_on_g_cycle | exact Hbad].
Defined.

(** ** Action 3 *)

(** X4.  Action 3 is its own inverse: it always succeeds, touches nothing
    but [owner[n]], which becomes [1 - owner[n]] (so the labels 0 and 1
    are exchanged), and two of them in a row on the same node give the
    game back. *)
Theorem action3_involution g n left r1 r2 :
  sized g → node_of g n →
  yields (perform 3 n g left) r1 → yields (perform 3 n r1.1 r1.2) r2 →
  r1.2 = left - 1 ∧
  owner_of r1.1 n = 1 - owner_of g n ∧
  (owner_of g n = 0 ∨ owner_of g n = 1 →
   (owner_of r1.1 n = 0 ∨ owner_of r1.1 n = 1) ∧ owner_of r1.1 n ≠ owner_of g n) ∧
  (∀ k, k ≠ n → owner_of r1.1 k = owner_of g k) ∧
  out r1.1 = out g ∧ in_ r1.1 = in_ g ∧ n_nodes r1.1 = n_nodes g ∧
  r2 = (g, left - 1 - 1).
Proof.
  intros Hsz Hn H1 H2.
  change (perform 3 n g left) with (mret (M := Prog) (flip_owner g n, left - 1)) in H1.
  apply yields_ret_inv in H1. subst r1. cbn [fst snd] in *.
  change (perform 3 n (flip_owner g n) (left - 1))
    with (mret (M := Prog) (flip_owner (flip_owner g n) n, left - 1 - 1)) in H2.
  apply yields_ret_inv in H2. subst r2.
  assert (owner_of (flip_owner g n) n = 1 - owner_of g n) as Hflip.
  { unfold owner_of, flip_owner. simpl. by apply get_upd_eq, sized_owner. }
  split_and!; try done.
  - rewrite Hflip. lia.
  - intros k Hk. unfold owner_of, flip_owner. simpl. by apply get_upd_ne.
  - f_equal. unfold flip_owner, with_owner. simpl. rewrite upd_upd.
    rewrite upd_fixed by (intros x _; simpl; lia). by destruct g.
Qed.

Lemma action3_involution_witness :
  sized g_edge ∧ node_of g_edge 1 ∧
  yields (perform 3 1 g_edge 1) (mkGame 2 [0; 0] [[1]; []] [[]; [0]], 0) ∧
  yields (perform 3 1 (mkGame 2 [0; 0] [[1]; []] [[]; [0]]) 0) (g_edge, -1) ∧
  owner_of (mkGame 2 [0; 0] [[1]; []] [[]; [0]]) 1 = 1 - owner_of g_edge 1.
Proof.
  assert (sized g_edge) as Hsz by (unfold sized, Vec.size; simpl; lia).
  assert (node_of g_edge 1) as Hn by (unfold node_of; simpl; lia).
  assert (yields (perform 3 1 g_edge 1) (mkGame 2 [0; 0] [[1]; []] [[]; [0]], 0))
    as H1 by (apply (run_yields _ [] [] _ []); reflexivity).
  assert (yields (perform 3 1 (mkGame 2 [0; 0] [[1]; []] [[]; [0]]) 0) (g_edge, -1))
    as H2 by (apply (run_yields _ [] [] _ []); reflexivity).
  destruct (action3_involution g_edge 1 1 _ _ Hsz Hn H1 H2) as (_ & Hflip & _).
  split_and!; [exact Hsz | exact Hn | exact H1 | exact H2 | exact Hflip].
Defined.

(** ** Adding and erasing an edge *)

Lemma erase_pushed_edge g n m :
  well_formed g → node_of g n → node_of g m → m ∉ outs g n →
  erase_edge (push_edge g n m) n (Vec.size (outs g n)) = g.
Proof.
  intros Hwf Hn Hm Hnew. pose proof Hwf as Hwf'. unpack_wf Hwf'.
  assert (outs (push_edge g n m) n = Vec.push_back m (outs g n)) as Hout.
  { rewrite outs_push_edge by done. by rewrite decide_True. }
  assert (Vec.get 0 (outs (push_edge g n m) n) (Vec.size (outs g n)) = m) as Hm'.
  { rewrite Hout. apply get_lookup; [apply size_nonneg |].
    unfold Vec.size, Vec.push_back. rewrite Nat2Z.id.
    by rewrite (list_lookup_middle (outs g n) [] m). }
  unfold erase_edge. rewrite Hm'. unfold push_edge, with_in, with_out. simpl.
  rewrite !upd_upd. rewrite !upd_fixed.
  - by destruct g.
  - intros x Hx. simpl. apply remove_all_push_back.
    replace x with (ins g m) by (by apply get_lookup; [apply Hm |]).
    intros Hin. apply Hnew. by apply (Hsym n m Hn Hm).
  - intros x Hx. simpl.
    replace (outs g n) with x by (symmetry; by apply get_lookup; [apply Hn |]).
    apply erase_at_push_back.
Qed.

(** X5.  Erasing the edge that action 5 has just added gives the game
    back: after a successful action 5 with target [m] on a well-formed
    game, action 0 on the same node with the last index of [out[n]]
    (possible as soon as [n] had a successor before) restores every
    vector. *)
Theorem add_then_erase_restores g n m left :
  well_formed g → node_of g n → node_of g m → m ∉ outs g n →
  1 ≤ Vec.size (outs g n) →
  yields (perform 5 n g left) (push_edge g n m, left - 1) ∧
  run (perform 0 n (push_edge g n m) (left - 1)) [Vec.size (outs g n)] [] =
    Done (g, left - 1 - 1) [(0, Vec.size (outs g n))].
Proof.
  intros Hwf Hn Hm Hnew Hdeg. pose proof Hwf as Hwf'. unpack_wf Hwf'.
  assert (outs (push_edge g n m) n = Vec.push_back m (outs g n)) as Hout.
  { rewrite outs_push_edge by done. by rewrite decide_True. }
  split.
  - unfold perform. rewrite !decide_False by lia. rewrite decide_True by done.
    apply (yields_bind_intro _ _ m).
    + apply (yields_call _ _ _ m); [unfold node_of in Hm; lia | constructor].
    + unfold addEdge. rewrite decide_False by done. constructor.
  - unfold perform. rewrite decide_True by done.
    rewrite Hout, size_push_back. rewrite decide_True by lia. simpl.
    rewrite decide_True by lia. rewrite decide_True by lia.
    rewrite erase_pushed_edge by done.
    do 3 f_equal. lia.
Qed.

Lemma add_then_erase_restores_witness :
  well_formed g_cycle ∧ node_of g_cycle 2 ∧ (2 ∉ outs g_cycle 2) ∧
  1 ≤ Vec.size (outs g_cycle 2) ∧
  run (perform 0 2 (push_edge g_cycle 2 2) (1 - 1)) [Vec.size (outs g_cycle 2)] [] =
    Done (g_cycle, 1 - 1 - 1) [(0, Vec.size (outs g_cycle 2))].
Proof.
  assert (2 ∉ outs g_cycle 2) as Hnew.
  { vm_compute. intros H. apply list_elem_of_In in H. simpl in H.
    intuition congruence. }
  assert (1 ≤ Vec.size (outs g_cycle 2)) as Hdeg by (vm_compute; discriminate).
  destruct (add_then_erase_restores g_cycle 2 2 1 well_formed_g_cycle
              node_2_of_g_cycle node_2_of_g_cycle Hnew Hdeg) as [_ Hrun].
  split_and!; [apply well_formed_g_cycle | apply node_2_of_g_cycle
              | exact Hnew | exact Hdeg | exact Hrun].
Defined.

(** ** The mutation phase as a whole *)

Lemma choose_action_0 action : yields (choose_action 0) action → 0 ≤ action ≤ 3.
Proof.
  unfold choose_action. rewrite decide_True by done. apply yields_rng_inv.
Qed.

(** What lines 66-164 return when they return: the parsed game without
    the modify option, and otherwise the parsed game after one action
    that passed its guards, on a node of the game and with an action of
    the profile. *)
Lemma mutation_result fuel opts g st :
  yields (mutate fuel (modify opts) (mkLoop g (initial_left opts) 0)) (Some st) →
  (count_modify opts = 0%nat ∧ game st = g) ∨
  (count_modify opts ≠ 0%nat ∧
   ∃ n action, node_of g n ∧ yields (choose_action (modify opts)) action ∧
               applied g n action (game st)).
Proof.
  intros [Hrtc Hend]%mutate_inv. unfold initial_left in Hrtc.
  case_decide as Hm.
  - right. split; [done |].
    apply single_success in Hrtc
      as [-> | (_ & _ & n & action & Hn & Hact & Happ)]; [done | | done].
    exists n, action. split_and!; [| done..]. unfold node_of. simpl in Hn. lia.
  - left. split; [lia |]. apply loop_stopped in Hrtc as ->; [done | simpl; lia].
Qed.

(** X6.  Starting from a well-formed game, the game returned by the
    mutation phase is well formed exactly when the one successful action
    was not action 4 (with [addEdge] and [extract_subgame] as the
    specification describes them).  Profiles 0 and 1 never choose action
    4, so under them, and without the modify option, the result is
    always well formed. *)
Theorem mutation_well_formed fuel opts g st :
  well_formed g →
  yields (mutate fuel (modify opts) (mkLoop g (initial_left opts) 0)) (Some st) →
  (count_modify opts = 0%nat → game st = g) ∧
  (count_modify opts ≠ 0%nat →
     ∃ n action, node_of g n ∧ yields (choose_action (modify opts)) action ∧
                 applied g n action (game st) ∧
                 (well_formed (game st) ↔ action ≠ 4)) ∧
  (count_modify opts = 0%nat ∨ modify opts = 0 ∨ modify opts = 1 →
     well_formed (game st)).
Proof.
  intros Hwf Hy.
  assert (∀ n action, node_of g n → applied g n action (game st) →
            (well_formed (game st) ↔ action ≠ 4)) as Hiff.
  { intros n action Hn Happ. split.
    - intros Hwf' ->. inversion Happ as [| | | | k Hsz Hk Hfrom |]; subst.
      assert (Vec.get 0 (ins g n) k ∈ ins g n) as Hin by (apply get_elem_of; lia).
      assert (node_of g (Vec.get 0 (ins g n) k)) as Hnode.
      { destruct Hwf as (_ & Hcl & _).
        destruct (Hcl n (Vec.get 0 (ins g n) k) Hn) as [_ Hi]. by apply Hi. }
      destruct (rewire_breaks g n _ Hwf Hn Hnode Hfrom Hin) as [Hbad _].
      apply Hbad. by rewrite H.
    - intros Hne. by apply (applied_well_formed g n action). }
  apply mutation_result in Hy as [[H0 Hg] | (H1 & n & action & Hn & Hact & Happ)].
  - split_and!; [done | done |]. intros _. by rewrite Hg.
  - split_and!; [done | | ].
    + intros _. exists n, action. split_and!; try done. by apply (Hiff n).
    + intros [? | [Hp | Hp]]; [done | |]; rewrite Hp in Hact;
        apply (Hiff n action Hn Happ).
      * apply choose_action_0 in Hact. lia.
      * apply choose_action_1 in Hact. lia.
Qed.

Lemma mutation_well_formed_witness :
  let st := mkLoop (mkGame 2 [1; 1] [[1]; []] [[]; [0]]) 0 1 in
  let opts := mkOptions 1 1 0 in
  well_formed g_edge ∧
  yields (mutate 1 (modify opts) (mkLoop g_edge (initial_left opts) 0)) (Some st) ∧
  modify opts = 1 ∧ well_formed (game st).
Proof.
  intros st opts.
  assert (yields (mutate 1 (modify opts) (mkLoop g_edge (initial_left opts) 0))
            (Some st)) as Hy.
  { apply (run_yields _ [0; 1] [] _ [(0, 1); (0, 2)]). reflexivity. }
  destruct (mutation_well_formed 1 opts g_edge st well_formed_g_edge Hy)
    as (_ & _ & Hwf).
  split_and!; [apply well_formed_g_edge | exact Hy | reflexivity |].
  apply Hwf. right. right. reflexivity.
Defined.

(** X7.  The mutation phase changes the node count by at most one: it
    is kept without the modify option and under profile 1, and otherwise
    either kept or decreased by one.  A well-formed game with a node ends
    up empty only if it had a single node and action 2 deleted it. *)
Theorem mutation_node_count fuel opts g st :
  well_formed g → 1 ≤ n_nodes g →
  yields (mutate fuel (modify opts) (mkLoop g (initial_left opts) 0)) (Some st) →
  (n_nodes (game st) = n_nodes g ∨ n_nodes (game st) = n_nodes g - 1) ∧
  (count_modify opts = 0%nat ∨ modify opts = 1 → n_nodes (game st) = n_nodes g) ∧
  (n_nodes (game st) = 0 →
     n_nodes g = 1 ∧ count_modify opts ≠ 0%nat ∧ modify opts ≠ 1 ∧
     game st = delete_node g 0).
Proof.
  intros Hwf Hg Hy.
  apply mutation_result in Hy as [[H0 Hst] | (H1 & n & action & Hn & Hact & Happ)].
  { rewrite Hst. split_and!; [by left | done | lia]. }
  assert (0 ≤ n ≤ n_nodes g - 1) as Hn' by (unfold node_of in Hn; lia).
  pose proof (applied_n_nodes g n action _ Hn' Happ) as Hcount.
  split_and!.
  - destruct Hcount as [? | [_ ?]]; [by left | by right].
  - intros [? | Hp]; [done |]. rewrite Hp in Hact.
    apply choose_action_1 in Hact. destruct Hcount as [? | [? _]]; [done | lia].
  - intros Hz. destruct Hcount as [Hsame | [Hdel Hless]]; [lia |].
    assert (n_nodes g = 1) as H1n by lia.
    assert (n = 0) as -> by lia.
    assert (action = 2) as ->.
    { destruct Hdel as [-> | ->]; [| done]. exfalso.
      inversion Happ as [| Hsz Hto | | | |]; subst.
      destruct Hwf as (_ & Hcl & _).
      destruct (Hcl 0 (Vec.get 0 (outs g 0) 0) Hn) as [Ho _].
      assert (node_of g (Vec.get 0 (outs g 0) 0)) as Hnode.
      { apply Ho. apply get_elem_of. lia. }
      unfold node_of in Hnode. lia. }
    split_and!; [done | done | |].
    + intros Hp. rewrite Hp in Hact. apply choose_action_1 in Hact. lia.
    + by inversion Happ.
Qed.

Lemma mutation_node_count_witness :
  let st := mkLoop (mkGame 0 [] [] []) 0 1 in
  let opts := mkOptions 1 0 0 in
  well_formed g_single ∧ 1 ≤ n_nodes g_single ∧
  yields (mutate 1 (modify opts) (mkLoop g_single (initial_left opts) 0)) (Some st) ∧
  n_nodes (game st) = 0 ∧ game st = delete_node g_single 0.
Proof.
  intros st opts.
  assert (1 ≤ n_nodes g_single) as Hg by (simpl; lia).
  assert (yields (mutate 1 (modify opts) (mkLoop g_single (initial_left opts) 0))
            (Some st)) as Hy.
  { apply (run_yields _ [0; 2] [] _ [(0, 0); (0, 3)]). reflexivity. }
  destruct (mutation_node_count 1 opts g_single st well_formed_g_single Hg Hy)
    as (_ & _ & Hempty).
  destruct (Hempty eq_refl) as (_ & _ & _ & Hdel).
  split_and!; [apply well_formed_g_single | exact Hg | exact Hy | reflexivity | exact Hdel].
Defined.

(** ** The empty game *)

(** X8.  On a game without nodes the program calls the sampler on the
    illegal range [0, n_nodes - 1] as its very first sampler call, as
    soon as the modify option or the bottom-SCC option is given; with
    neither option it makes no sampler call at all and hands the game
    on untouched. *)
Theorem empty_game_sampling getBottomSCC fuel opts g answers :
  n_nodes g ≤ 0 →
  (count_modify opts ≠ 0%nat ∨ count_b opts ≠ 0%nat →
     run (main getBottomSCC (S fuel) opts g) answers [] =
       BadRange 0 (n_nodes g - 1) []) ∧
  (count_modify opts = 0%nat → count_b opts = 0%nat →
     run (main getBottomSCC fuel opts g) answers [] = Done (Some g) []).
Proof.
  intros Hg. unfold main, initial_left, bottom_scc_stage. split.
  - intros Hopt. rewrite mutate_unfold.
    destruct (decide (count_modify opts ≠ 0%nat)) as [Hm | Hm]; simpl.
    + by rewrite decide_False by lia.
    + destruct Hopt as [? | Hb]; [done |]. rewrite decide_True by done.
      simpl. by rewrite decide_False by lia.
  - intros Hm Hb. rewrite mutate_unfold.
    rewrite (decide_False (P := count_modify opts ≠ 0%nat)) by (intros H; by apply H).
    simpl. by rewrite decide_False by (intros H; by apply H).
Qed.

Lemma empty_game_sampling_witness :
  n_nodes (mkGame 0 [] [] []) ≤ 0 ∧
  run (main (λ _ _, []) 1 (mkOptions 1 0 0) (mkGame 0 [] [] [])) [0; 3] [] =
    BadRange 0 (0 - 1) [] ∧
  run (main (λ _ _, []) 1 (mkOptions 0 0 0) (mkGame 0 [] [] [])) [0; 3] [] =
    Done (Some (mkGame 0 [] [] [])) [].
Proof.
  assert (n_nodes (mkGame 0 [] [] []) ≤ 0) as Hg by (simpl; lia).
  destruct (empty_game_sampling (λ _ _, []) 0 (mkOptions 1 0 0) _ [0; 3] Hg)
    as [Hbad _].
  destruct (empty_game_sampling (λ _ _, []) 1 (mkOptions 0 0 0) _ [0; 3] Hg)
    as [_ Hok].
  split_and!; [exact Hg | | exact (Hok eq_refl eq_refl)].
  apply Hbad. left. simpl. lia.
Defined.

(** ** Action 1, net effect *)

(** X9.  A successful action 1 by-passes node [n]: [n] had the single
    successor [to], a node other than [n]; afterwards the game has one
    node less and is well formed, the survivors keep their owners, and
    between two survivors there is an edge exactly if there was one
    before or if it replaces a path through [n], that is, it leads to
    [to] from a node that had an edge to [n] (all read through the
    renumbering, and with [addEdge] and [extract_subgame] as the
    specification describes them). *)
Theorem action1_bypass g n left g' :
  well_formed g → node_of g n →
  yields (perform 1 n g left) (g', left - 1) →
  let to := Vec.get 0 (outs g n) 0 in
  outs g n = [to] ∧ node_of g to ∧ to ≠ n ∧
  n_nodes g' = n_nodes g - 1 ∧ well_formed g' ∧
  (∀ a, node_of g a → a ≠ n → owner_of g' (shift n a) = owner_of g a) ∧
  (∀ a b, node_of g a → node_of g b → a ≠ n → b ≠ n →
     shift n b ∈ outs g' (shift n a) ↔
     b ∈ outs g a ∨ (b = to ∧ n ∈ outs g a)).
Proof.
  intros Hwf Hn Hy to.
  apply perform_inv in Hy as [Hy | (g2 & Happ & Hy)].
  { injection Hy as _ Hl. lia. }
  injection Hy as ->. inversion Happ as [| Hsz Hto | | | |]; subst.
  pose proof (singleton_vector 0 _ Hsz) as Hout. fold to in Hout, Hto.
  destruct (forward_edges_spec n to g Hwf Hn Hout) as (Hwf1 & Hn1 & Hown1 & Hout1).
  pose proof Hwf as Hwf'. unpack_wf Hwf'.
  assert (node_of (forward_edges g n) n) as Hnh by (by apply (node_of_n_nodes g)).
  assert (∀ x, node_of g x → node_of (forward_edges g n) x) as Hnode.
  { intros x Hx. by apply (node_of_n_nodes g). }
  split_and!.
  - done.
  - destruct (Hcl n to Hn) as [Ho _]. apply Ho. rewrite Hout. by left.
  - done.
  - rewrite n_nodes_delete_node by done. lia.
  - by apply well_formed_delete_node.
  - intros a Ha Hne. rewrite owner_of_delete_node by auto.
    unfold owner_of. by rewrite Hown1.
  - intros a b Ha Hb Hane Hbne.
    rewrite elem_of_outs_delete_node by auto. rewrite Hout1.
    by rewrite (Hsym a n Ha Hn).
Qed.

Lemma action1_bypass_witness :
  let g' := mkGame 2 [0; 0] [[1]; []] [[]; [0]] in
  well_formed g_path ∧ node_of g_path 1 ∧
  yields (perform 1 1 g_path 1) (g', 1 - 1) ∧
  n_nodes g' = n_nodes g_path - 1 ∧ well_formed g'.
Proof.
  intros g'.
  assert (node_of g_path 1) as Hn by (unfold node_of; simpl; lia).
  assert (yields (perform 1 1 g_path 1) (g', 1 - 1)) as Hy.
  { apply (run_yields _ [] [] _ []). reflexivity. }
  destruct (action1_bypass g_path 1 1 g' well_formed_g_path Hn Hy)
    as (_ & _ & _ & Hnn & Hwf & _).
  split_and!; [apply well_formed_g_path | exact Hn | exact Hy | exact Hnn | exact Hwf].
Defined.

(** ** Action 0, net effect *)

(** X10.  A successful action 0 removes exactly one edge: for the sampled
    successor [m] of [n], the edges of the game afterwards are those it
    had before except [(n, m)], in the forward and in the backward
    vectors alike; the game is still well formed and [n] still has a
    successor. *)
Theorem action0_removes_one_edge g n left g' :
  well_formed g → node_of g n →
  yields (perform 0 n g left) (g', left - 1) →
  ∃ m, m ∈ outs g n ∧
    (∀ a b, b ∈ outs g' a ↔ b ∈ outs g a ∧ ¬ (a = n ∧ b = m)) ∧
    (∀ a b, a ∈ ins g' b ↔ a ∈ ins g b ∧ ¬ (a = n ∧ b = m)) ∧
    well_formed g' ∧ 1 ≤ Vec.size (outs g' n) ∧
    Vec.size (outs g' n) = Vec.size (outs g n) - 1 ∧
    Vec.size (ins g' m) = Vec.size (ins g m) - 1.
Proof.
  intros Hwf Hn Hy. apply perform_inv in Hy as [Hy | (g2 & Happ & Hy)].
  { injection Hy as _ Hl. lia. }
  injection Hy as ->. inversion Happ as [edge Hsz He | | | | |]; subst.
  assert (0 ≤ edge < Vec.size (outs g n)) as Hedge by lia.
  pose proof (outs_erase_edge g n edge Hwf Hn) as Ho.
  pose proof (ins_erase_edge g n edge Hwf Hn Hedge) as Hi.
  pose proof (elem_of_erased g n edge Hwf Hn Hedge) as Her.
  pose proof (erased_target_elem g n edge Hedge) as Hm.
  pose proof (erased_target_node g n edge Hwf Hn Hedge) as Hmn.
  destruct (erase_at_split 0 edge (outs g n) Hedge) as (l1 & l2 & Hl & Hl1 & Hsplit).
  pose proof Hwf as Hwf'. unpack_wf Hwf'.
  exists (Vec.get 0 (outs g n) edge). split_and!.
  - done.
  - intros a b. rewrite Ho. case_decide as Ha; [subst a; rewrite Her |]; naive_solver.
  - intros a b. rewrite Hi. case_decide as Hb;
      [subst b; rewrite elem_of_remove_all |]; naive_solver.
  - by apply well_formed_erase_edge.
  - rewrite Ho, decide_True by done. rewrite Hsplit.
    apply (f_equal Vec.size) in Hl. revert Hl Hsz. generalize (outs g n).
    intros l ->. unfold Vec.size. rewrite !length_app. simpl. lia.
  - rewrite Ho, decide_True by done. rewrite Hsplit.
    apply (f_equal Vec.size) in Hl. revert Hl. generalize (outs g n).
    intros l ->. unfold Vec.size. rewrite !length_app. simpl. lia.
  - rewrite Hi, decide_True by done. apply size_remove_all.
    + by destruct (Hnd _ Hmn).
    + by apply (Hsym n _ Hn Hmn).
Qed.

Lemma action0_removes_one_edge_witness :
  let g' := mkGame 4 [0; 1; 0; 1] [[1]; [2]; [0]; []] [[2]; [0]; [1]; []] in
  well_formed g_cycle ∧ node_of g_cycle 2 ∧
  yields (perform 0 2 g_cycle 1) (g', 1 - 1) ∧
  well_formed g' ∧ 1 ≤ Vec.size (outs g' 2).
Proof.
  intros g'.
  assert (yields (perform 0 2 g_cycle 1) (g', 1 - 1)) as Hy.
  { apply (run_yields _ [1] [] _ [(0, 1)]). reflexivity. }
  destruct (action0_removes_one_edge g_cycle 2 1 g' well_formed_g_cycle
              node_2_of_g_cycle Hy) as (m & _ & _ & _ & Hwf & Hdeg & _).
  split_and!; [apply well_formed_g_cycle | apply node_2_of_g_cycle | exact Hy
              | exact Hwf | exact Hdeg].
Defined.

(** ** Profile 0 only removes *)

Lemma sum_list_with_fmap {A B} (f : B → nat) (h : A → B) (l : list A) :
  sum_list_with f (h <$> l) = sum_list_with (f ∘ h) l.
Proof. induction l as [| x l IH]; csimpl; [done | by rewrite IH]. Qed.

Lemma sum_list_with_filter_le {A} (P : A → Prop) `{∀ x, Decision (P x)}
    (F G : A → nat) (l : list A) :
  (∀ x, x ∈ l → P x → (F x ≤ G x)%nat) →
  (sum_list_with F (filter P l) ≤ sum_list_with G l)%nat.
Proof.
  induction l as [| x l IH]; intros Hle; [done |].
  assert (sum_list_with F (filter P l) ≤ sum_list_with G l)%nat as IH'.
  { apply IH. intros y Hy. apply Hle. by right. }
  destruct (decide (P x)) as [Hx | Hx].
  - rewrite filter_cons_True by done. simpl.
    assert (F x ≤ G x)%nat by (apply Hle; [by left | done]). lia.
  - rewrite filter_cons_False by done. simpl. lia.
Qed.

Lemma sum_list_with_le {A} (F G : A → nat) (l : list A) :
  (∀ x, x ∈ l → (F x ≤ G x)%nat) →
  (sum_list_with F l ≤ sum_list_with G l)%nat.
Proof.
  induction l as [| x l IH]; intros Hle; simpl; [done |].
  assert (F x ≤ G x)%nat by (apply Hle; by left).
  assert (sum_list_with F l ≤ sum_list_with G l)%nat.
  { apply IH. intros y Hy. apply Hle. by right. }
  lia.
Qed.

(** A vector with one slot per node, read node by node. *)
Lemma vector_by_node {A} (d : A) (v : list A) :
  v = (λ i, Vec.get d v i) <$> seqZ 0 (Vec.size v).
Proof.
  apply list_eq. intros i. rewrite list_lookup_fmap.
  destruct (decide (i < length v)%nat) as [Hi | Hi].
  - rewrite lookup_seqZ_lt by (unfold Vec.size; lia). simpl.
    destruct (lookup_lt_is_Some_2 v i Hi) as [x Hx]. rewrite Hx. f_equal.
    symmetry. apply get_lookup; [lia |].
    by replace (Z.to_nat (0 + Z.of_nat i)) with i by lia.
  - rewrite lookup_seqZ_ge by (unfold Vec.size; lia).
    by rewrite lookup_ge_None_2 by lia.
Qed.

Lemma edge_count_by_node g :
  sized g →
  edge_count g = sum_list_with (λ v, length (outs g v)) (seqZ 0 (n_nodes g)).
Proof.
  intros (_ & _ & Hout & _). unfold edge_count.
  rewrite (vector_by_node [] (out g)) at 1. rewrite sum_list_with_fmap.
  by rewrite Hout.
Qed.

Lemma length_carry_over keep l : (length (carry_over keep l) ≤ length l)%nat.
Proof.
  unfold carry_over. induction l as [| x l IH]; csimpl; [done |].
  destruct (index_of keep x); csimpl; lia.
Qed.

(** Carrying over a duplicate-free vector yields no more entries than
    any vector holding its retained entries. *)
Lemma length_carry_over_le keep l l2 :
  NoDup l → (∀ b, b ∈ l → b ∈ keep → b ∈ l2) →
  (length (carry_over keep l) ≤ length l2)%nat.
Proof.
  intros Hnd Hsub.
  transitivity (length (carry_over keep l2)); [| apply length_carry_over].
  apply submseteq_length, NoDup_submseteq; [by apply NoDup_carry_over |].
  intros j (b & Hb & Hj)%elem_of_carry_over. apply elem_of_carry_over.
  exists b. split; [| done]. apply Hsub; [done |].
  apply index_of_lookup in Hj as [_ Hj]. by eapply list_elem_of_lookup_2.
Qed.

(** Deleting node [n] from [h] leaves at most as many edges as a game
    [g] on the same nodes whose out-degrees bound the out-degrees that
    the survivors of [h] retain. *)
Lemma edge_count_delete_node g h n :
  sized g → n_nodes h = n_nodes g →
  (∀ a, node_of g a → a ≠ n →
     (length (carry_over (tokeep h n) (outs h a)) ≤ length (outs g a))%nat) →
  (edge_count (delete_node h n) ≤ edge_count g)%nat.
Proof.
  intros Hsz Hnn Hle. rewrite (edge_count_by_node g Hsz).
  unfold edge_count, delete_node, extract_subgame. simpl.
  rewrite sum_list_with_fmap. unfold tokeep at 2. rewrite Hnn.
  apply sum_list_with_filter_le. intros a Ha%elem_of_seqZ Hne. simpl.
  apply Hle; [unfold node_of; lia | done].
Qed.

Lemma applied_edge_count g n action g' :
  well_formed g → node_of g n → 0 ≤ action ≤ 3 → applied g n action g' →
  (edge_count g' ≤ edge_count g)%nat.
Proof.
  intros Hwf Hn Hact Happ. pose proof Hwf as Hwf'. unpack_wf Hwf'.
  destruct Happ as [edge Hdeg He | Hdeg Hto | | | k Hdeg Hk Hfrom | m Hm Hnew];
    try lia.
  - (* action 0 *)
    assert (0 ≤ edge < Vec.size (outs g n)) as Hedge by lia.
    assert (sized (erase_edge g n edge)) as Hsz'.
    { by apply well_formed_erase_edge. }
    rewrite (edge_count_by_node g Hsz), (edge_count_by_node _ Hsz').
    change (n_nodes (erase_edge g n edge)) with (n_nodes g).
    apply sum_list_with_le. intros a _.
    rewrite (outs_erase_edge g n edge Hwf Hn). case_decide; [subst a | done].
    destruct (erase_at_split 0 edge (outs g n) Hedge) as (l1 & l2 & Hl & _ & ->).
    apply (f_equal length) in Hl. revert Hl. generalize (outs g n).
    intros l ->. rewrite !length_app. simpl. lia.
  - (* action 1 *)
    pose proof (singleton_vector 0 _ Hdeg) as Hout.
    destruct (forward_edges_spec n _ g Hwf Hn Hout) as (Hwf1 & Hn1 & _ & Hout1).
    apply edge_count_delete_node; [done | done |].
    intros a Ha Hne.
    assert (NoDup (outs (forward_edges g n) a)) as Hnda.
    { destruct Hwf1 as (_ & _ & _ & Hnd1).
      by destruct (Hnd1 a (proj2 (node_of_n_nodes g _ a Hn1) Ha)). }
    destruct (decide (n ∈ outs g a)) as [Hpred | Hpred].
    + transitivity (length (Vec.remove_all n (outs g a) ++ [Vec.get 0 (outs g n) 0])).
      * apply length_carry_over_le; [done |].
        intros b Hb [_ Hbn]%elem_of_tokeep.
        apply Hout1 in Hb as [Hb | [-> _]].
        -- apply elem_of_app. left. by apply elem_of_remove_all.
        -- apply elem_of_app. right. by left.
      * pose proof (size_remove_all n (outs g a) (proj1 (Hnd a Ha)) Hpred) as Hrm.
        unfold Vec.size in Hrm. rewrite length_app. simpl. lia.
    + apply length_carry_over_le; [done |].
      intros b Hb _. apply Hout1 in Hb as [Hb | [_ Hin]]; [done |].
      destruct Hpred. by apply (Hsym a n Ha Hn).
  - (* action 2 *)
    apply edge_count_delete_node; [done | done |].
    intros a Ha Hne. apply length_carry_over.
  - (* action 3 *)
    done.
Qed.

(** X11.  Under profile 0, "only remove", the mutation phase never
    increases the number of edges of a well-formed game, although action
    1 adds by-pass edges before it deletes its node (with [addEdge] and
    [extract_subgame] as the specification describes them). *)
Theorem profile0_only_removes fuel opts g st :
  well_formed g → modify opts = 0 →
  yields (mutate fuel (modify opts) (mkLoop g (initial_left opts) 0)) (Some st) →
  (edge_count (game st) ≤ edge_count g)%nat.
Proof.
  intros Hwf Hp Hy.
  apply mutation_result in Hy as [[H0 ->] | (H1 & n & action & Hn & Hact & Happ)];
    [done |].
  rewrite Hp in Hact. apply choose_action_0 in Hact.
  by apply (applied_edge_count g n action).
Qed.

Lemma profile0_only_removes_witness :
  let st := mkLoop (mkGame 2 [0; 0] [[1]; []] [[]; [0]]) 0 1 in
  let opts := mkOptions 1 0 0 in
  well_formed g_path ∧ modify opts = 0 ∧
  yields (mutate 1 (modify opts) (mkLoop g_path (initial_left opts) 0)) (Some st) ∧
  (edge_count (game st) ≤ edge_count g_path)%nat.
Proof.
  intros st opts.
  assert (yields (mutate 1 (modify opts) (mkLoop g_path (initial_left opts) 0))
            (Some st)) as Hy.
  { apply (run_yields _ [1; 1] [] _ [(0, 2); (0, 3)]). reflexivity. }
  pose proof (profile0_only_removes 1 opts g_path st well_formed_g_path eq_refl Hy)
    as Hle.
  split_and!; [apply well_formed_g_path | reflexivity | exact Hy | exact Hle].
Defined.

(** ** Sampler calls of one attempt *)

Lemma run_bind {A B} (p : Prog A) (f : A → Prog B) answers calls b calls' :
  run (p ≫= f) answers calls = Done b calls' →
  ∃ a mid rest,
    run p answers calls = Done a (calls ++ mid) ∧
    length answers = (length mid + length rest)%nat ∧
    run (f a) rest (calls ++ mid) = Done b calls'.
Proof.
  unfold mbind, Prog_bind. revert answers calls.
  induction p as [a | lo hi k IH]; simpl; intros answers calls Hr.
  - exists a, [], answers. rewrite app_nil_r. done.
  - case_decide; [| done]. destruct answers as [| v answers]; [done |].
    case_decide; [| done].
    destruct (IH v answers _ Hr) as (a & mid & rest & H1 & H2 & H3).
    exists a, ((lo, hi) :: mid), rest.
    rewrite <- app_assoc in H1, H3. simpl in *. split_and!; [done | lia | done].
Qed.

Lemma run_rng lo hi answers calls v calls' :
  run (rng lo hi) answers calls = Done v calls' →
  calls' = calls ++ [(lo, hi)].
Proof.
  unfold rng. simpl. case_decide; [| done].
  destruct answers as [| w answers]; [done |]. case_decide; [| done].
  by intros [= _ <-].
Qed.

Lemma run_ret {A} (a b : A) answers calls calls' :
  run (mret a) answers calls = Done b calls' → b = a ∧ calls' = calls.
Proof. by intros [= <- <-]. Qed.

Lemma run_choose_action profile answers calls action calls' :
  run (choose_action profile) answers calls = Done action calls' →
  calls' = calls ++ [(0, if decide (profile = 0) then 3
                         else if decide (profile = 1) then 2 else 5)].
Proof.
  unfold choose_action. repeat case_decide; intros Hr.
  - by apply run_rng in Hr.
  - apply run_bind in Hr as (slot & mid & rest & H1 & _ & H2).
    apply run_rng in H1. apply run_ret in H2 as [_ ->]. done.
  - by apply run_rng in Hr.
Qed.

Lemma run_perform action n g left answers calls r calls' :
  run (perform action n g left) answers calls = Done r calls' →
  calls' = calls ∨ ∃ hi, 0 ≤ hi ∧ calls' = calls ++ [(0, hi)].
Proof.
  unfold perform. intros Hr.
  repeat case_decide; try (apply run_ret in Hr as [_ ->]; by left).
  all: apply run_bind in Hr as (v & mid & rest & Hrng & _ & Hk).
  all: pose proof (run_yields _ _ _ _ _ Hrng) as Hv%yields_rng_inv.
  all: apply run_rng in Hrng; rewrite Hrng in Hk; cbv zeta in Hk.
  all: right; eexists;
    (split; [| repeat case_decide; apply run_ret in Hk as [_ ->]; done]).
  all: lia.
Qed.

(** X12.  An attempt that runs to its end calls the sampler two or three
    times and never more: first over the nodes, [0, n_nodes - 1], then
    over the slots of the profile ([0, 3], [0, 2] or [0, 5]), and at most
    once more, over a range that starts at 0, for the edge of action 0,
    the predecessor of action 4 or the target of action 5. *)
Theorem iteration_calls profile st answers st' calls :
  run (iteration profile st) answers [] = Done st' calls →
  ∃ rest,
    calls = (0, n_nodes (game st) - 1) ::
            (0, if decide (profile = 0) then 3
                else if decide (profile = 1) then 2 else 5) :: rest ∧
    (rest = [] ∨ ∃ hi, 0 ≤ hi ∧ rest = [(0, hi)]) ∧
    0 ≤ n_nodes (game st) - 1.
Proof.
  unfold iteration. intros Hr.
  apply run_bind in Hr as (n & mid1 & rest1 & H1 & _ & Hr).
  pose proof (run_yields _ _ _ _ _ H1) as Hn%yields_rng_inv.
  apply run_rng in H1. simpl in H1. rewrite H1 in Hr.
  apply run_bind in Hr as (action & mid2 & rest2 & H2 & _ & Hr).
  apply run_choose_action in H2. rewrite H2 in Hr.
  apply run_bind in Hr as (r & mid3 & rest3 & H3 & _ & Hr).
  apply run_ret in Hr as [_ ->].
  apply run_perform in H3 as [H3 | (hi & Hhi & H3)]; rewrite H3; simpl.
  - exists []. split_and!; [done | by left | lia].
  - exists [(0, hi)]. split_and!; [done | right; by exists hi | lia].
Qed.

Lemma iteration_calls_witness :
  let st' := mkLoop (mkGame 4 [0; 1; 0; 1] [[1]; [2]; [0]; []]
                       [[2]; [0]; [1]; []]) 0 1 in
  run (iteration 0 (mkLoop g_cycle 1 0)) [2; 0; 1] [] =
    Done st' [(0, 3); (0, 3); (0, 1)] ∧
  ∃ rest, [(0, 3); (0, 3); (0, 1)] = (0, 3) :: (0, 3) :: rest ∧
          (rest = [] ∨ ∃ hi, 0 ≤ hi ∧ rest = [(0, hi)]).
Proof.
  intros st'.
  assert (run (iteration 0 (mkLoop g_cycle 1 0)) [2; 0; 1] [] =
            Done st' [(0, 3); (0, 3); (0, 1)]) as Hr by reflexivity.
  destruct (iteration_calls 0 _ _ _ _ Hr) as (rest & Hc & Hrest & _).
  split; [exact Hr |]. exists rest. split; [exact Hc | exact Hrest].
Defined.

(** ** The program up to the priority transforms *)

(** X13.  Provided [getBottomSCC] returns, for a node of a well-formed
    game, a non-empty duplicate-free selection of nodes of that game:
    without the modify option and under profiles 0 and 1, whatever [main]
    hands on to the priority transforms is a well-formed game, and it has
    at least one node when the bottom-SCC option was given (with
    [addEdge] and [extract_subgame] as the specification describes
    them). *)
Theorem main_well_formed getBottomSCC fuel opts g g' :
  (∀ h s, well_formed h → node_of h s →
     getBottomSCC h s ≠ [] ∧ NoDup (getBottomSCC h s) ∧
     ∀ v, v ∈ getBottomSCC h s → node_of h v) →
  well_formed g →
  count_modify opts = 0%nat ∨ modify opts = 0 ∨ modify opts = 1 →
  yields (main getBottomSCC fuel opts g) (Some g') →
  well_formed g' ∧ (count_b opts ≠ 0%nat → 1 ≤ n_nodes g').
Proof.
  intros Hscc Hwf Hprofile Hy. unfold main in Hy.
  apply yields_bind in Hy as ([st |] & Hmut & Hy);
    [| by apply yields_ret_inv in Hy].
  assert (well_formed (game st)) as Hwf1.
  { apply mutation_result in Hmut
      as [[_ ->] | (H1 & n & action & Hn & Hact & Happ)]; [done |].
    apply (applied_well_formed g n action); [done.. |].
    destruct Hprofile as [? | [Hp | Hp]]; [done | |]; rewrite Hp in Hact.
    - apply choose_action_0 in Hact. lia.
    - apply choose_action_1 in Hact. lia. }
  apply yields_bind in Hy as (g2 & Hstage & Hy).
  apply yields_ret_inv in Hy. injection Hy as ->.
  unfold bottom_scc_stage in Hstage. case_decide as Hb.
  - apply yields_bind in Hstage as (start & Hs%yields_rng_inv & Hstage).
    apply yields_ret_inv in Hstage. subst g2.
    assert (node_of (game st) start) as Hstart by (unfold node_of; lia).
    destruct (Hscc (game st) start Hwf1 Hstart) as (Hne & Hnd & Hnodes).
    split; [by apply well_formed_extract |].
    intros _. simpl. unfold Vec.size.
    destruct (getBottomSCC (game st) start); [done | simpl; lia].
  - apply yields_ret_inv in Hstage. subst g2. split; [done |].
    intros Hb'. destruct Hb. by intros ?.
Qed.

Lemma main_well_formed_witness :
  let scc : Game → Z → list Z := λ _ s, [s] in
  let opts := mkOptions 1 1 1 in
  let g' := mkGame 1 [1] [[]] [[]] in
  (∀ h s, well_formed h → node_of h s →
     scc h s ≠ [] ∧ NoDup (scc h s) ∧ ∀ v, v ∈ scc h s → node_of h v) ∧
  well_formed g_edge ∧ modify opts = 1 ∧
  yields (main scc 1 opts g_edge) (Some g') ∧
  well_formed g' ∧ 1 ≤ n_nodes g'.
Proof.
  intros scc opts g'.
  assert (∀ h s, well_formed h → node_of h s →
     scc h s ≠ [] ∧ NoDup (scc h s) ∧ ∀ v, v ∈ scc h s → node_of h v) as Hscc.
  { intros h s _ Hs. split_and!; [done | apply NoDup_singleton |].
    by intros v ->%list_elem_of_singleton. }
  assert (yields (main scc 1 opts g_edge) (Some g')) as Hy.
  { apply (run_yields _ [0; 1; 0] [] _ [(0, 1); (0, 2); (0, 1)]). reflexivity. }
  destruct (main_well_formed scc 1 opts g_edge g' Hscc well_formed_g_edge
              (or_intror (or_intror eq_refl)) Hy) as [Hwf Hn].
  split_and!; [exact Hscc | apply well_formed_g_edge | reflexivity | exact Hy
              | exact Hwf |].
  apply Hn. simpl. lia.
Defined.
